(** * PrologOps: unification and backtracking in continuation-passing style

    A shallow embedding of [prologops.cpp].  The C++ program keeps every
    [Term] on the heap and one global trail; functions never return a
    value but call either their continuation [K] or their retry [R].

    - the heap is an arena of cells addressed by [ptr]; [nullptr] is
      address [0] and [new Term()] returns the next free address;
    - the global [gTrail] and the characters written by [printf] are
      components of the machine state;
    - [Retry = std::function<void(void)>] and
      [Continuation = std::function<void(Retry)>] are functions on the
      machine state; since the C++ functions return [void], the "value"
      of a call is whatever the continuation it ends up calling yields;
    - the recursion of [Deref], [Unify], [Member0] ... follows the term
      graph, which may be cyclic, so these functions take a [fuel]
      argument that bounds the call depth.  *)

From stdpp Require Import base list strings.
From Stdlib Require Import ZArith Lia.

Set Warnings "-register-all".

Open Scope string_scope.
Open Scope Z_scope.
Open Scope list_scope.
Open Scope nat_scope.

(** ** Data model *)

(** [Term*]. *)
Definition ptr := nat.
Definition nullptr : ptr := 0.

(** [struct Term]: the tag [mType] selects the live member of the union,
    [eVariable] for [Variable { mIsBound; mReference }] and [eAtom] for
    [Atom { mName; mArity; mTerms[10] }]. *)
Inductive Term : Type :=
| TVariable (mIsBound : bool) (mReference : ptr)
| TAtom (mName : string) (mArity : Z) (mTerms : list ptr).

(** Number of slots of [Atom::mTerms]. *)
Definition Atom_capacity : nat := 10.

(** The machine state: the cells allocated so far (cell [i] of the list
    lives at address [S i]), [gTrail.mTrail], and standard output. *)
Record State : Type := mkState {
  heap : list Term;
  mTrail : list ptr;
  out : string
}.

Definition initial : State := mkState [] [] "".

(** The cell at address [p] of an arena, and the arena after a write to
    that cell. *)
Definition cell_at (h : list Term) (p : ptr) : option Term :=
  match p with
  | O => None
  | S i => h !! i
  end.

Definition set_cell (p : ptr) (c : Term) (h : list Term) : list Term :=
  match p with
  | O => h
  | S i => <[i := c]> h
  end.

(** [*p]: reading through the null pointer or through an address that
    was never allocated has no defined behaviour. *)
Definition load (s : State) (p : ptr) : option Term := cell_at (heap s) p.

Definition store (p : ptr) (c : Term) (s : State) : State :=
  mkState (set_cell p c (heap s)) (mTrail s) (out s).

(** [new Term()] followed by the initialisation of its fields. *)
Definition new_Term (c : Term) (s : State) : ptr * State :=
  (S (length (heap s)), mkState (heap s ++ [c]) (mTrail s) (out s)).

(** [printf]. *)
Definition printf (text : string) (s : State) : State :=
  mkState (heap s) (mTrail s) (String.append (out s) text).

(** ** Results of a run *)

(** A run either ends with a value, or reaches an operation the C++
    standard leaves undefined, or exceeds the depth allowed by [fuel]. *)
Inductive Result (A : Type) : Type :=
| Done (a : A)
| Undefined
| OutOfFuel.
Arguments Done {A} a.
Arguments Undefined {A}.
Arguments OutOfFuel {A}.

Definition Result_bind {A B : Type} (f : A -> Result B) (m : Result A) : Result B :=
  match m with
  | Done a => f a
  | Undefined => Undefined
  | OutOfFuel => OutOfFuel
  end.

#[global] Instance Result_mbind : MBind Result := @Result_bind.
#[global] Instance Result_mret : MRet Result := @Done.

(** [typedef std::function<void(void)> Retry;]
    [typedef std::function<void(Retry)> Continuation;] *)
Definition Retry (A : Type) : Type := State -> Result A.
Definition Continuation (A : Type) : Type := Retry A -> State -> Result A.

(** ** Deref *)

(** [Term* Deref(Term* Root)]: one unit of fuel per test of the loop
    condition. *)
Fixpoint Deref (fuel : nat) (Root : ptr) (s : State) : Result ptr :=
  match fuel with
  | O => OutOfFuel
  | S fuel' =>
      match load s Root with
      | None => Undefined
      | Some (TVariable true mReference) => Deref fuel' mReference s
      | Some _ => Done Root
      end
  end.

(** ** Trail *)

(** [Trail::Add]. *)
Definition Trail_Add (t : ptr) (s : State) : State :=
  mkState (heap s) (mTrail s ++ [t]) (out s).

(** [mTrail.pop_back()]. *)
Definition pop_back (s : State) : State :=
  mkState (heap s) (removelast (mTrail s)) (out s).

(** [mTrail.back()->mVariable.mIsBound = false;]: only the flag is
    written, [mReference] keeps its value.  Writing the [mVariable]
    member of a cell whose live member is [mAtom] is outside the model. *)
Definition clear_IsBound (t : ptr) (s : State) : Result State :=
  match load s t with
  | Some (TVariable _ mReference) => Done (store t (TVariable false mReference) s)
  | _ => Undefined
  end.

(** The loop of [Trail::UnWind]; [back()] on an empty vector is
    undefined.  Every iteration pops one entry, so [fuel] equal to the
    length of the trail is never exhausted. *)
Fixpoint UnWind_loop (fuel : nat) (Index : nat) (s : State) : Result State :=
  if length (mTrail s) =? Index then Done s
  else
    match last (mTrail s) with
    | None => Undefined
    | Some t =>
        match fuel with
        | O => OutOfFuel
        | S fuel' =>
            s' ← clear_IsBound t s;
            UnWind_loop fuel' Index (pop_back s')
        end
    end.

(** [void Trail::UnWind(int Index)]. *)
Definition UnWind (Index : nat) (s : State) : Result State :=
  UnWind_loop (length (mTrail s)) Index s.

(** [void Bind(Term* t0, Term* t1)]. *)
Definition Bind (t0 t1 : ptr) (s : State) : Result State :=
  match load s t0 with
  | Some (TVariable _ _) => Done (Trail_Add t0 (store t0 (TVariable true t1) s))
  | _ => Undefined
  end.

(** ** Unify *)

(** The retry [r] built by [UnifyTerms]:
    [[R, index]() { gTrail.UnWind(index); R(); }]. *)
Definition UnifyTerms_r {A : Type} (R : Retry A) (index : nat) : Retry A :=
  fun s => s' ← UnWind index s; R s'.

(** [Unify] and [UnifyTerms].  A [Term**] into the [mTerms] array of an
    atom is modelled by the slots from that position on: [*t0s] is the
    head, [t0s + 1] the tail, and reading past the last slot is
    undefined.  (Unification never writes to an [mTerms] array.) *)
Fixpoint Unify {A : Type} (fuel : nat) (t0 t1 : ptr)
    (K : Continuation A) (R : Retry A) (s : State) {struct fuel} : Result A :=
  match fuel with
  | O => OutOfFuel
  | S fuel' =>
      t0dr ← Deref fuel t0 s;
      t1dr ← Deref fuel t1 s;
      match load s t0dr with
      | None => Undefined
      | Some (TVariable _ _) =>
          s' ← Bind t0dr t1dr s; K R s'
      | Some (TAtom mName0 mArity0 mTerms0) =>
          match load s t1dr with
          | None => Undefined
          | Some (TVariable _ _) =>
              s' ← Bind t1dr t0dr s; K R s'
          | Some (TAtom mName1 mArity1 mTerms1) =>
              if String.eqb mName1 mName0 && (mArity1 =? mArity0)%Z
              then UnifyTerms fuel' mTerms0 mTerms1 K R mArity0 s
              else R s
          end
      end
  end
with UnifyTerms {A : Type} (fuel : nat) (t0s t1s : list ptr)
    (K : Continuation A) (R : Retry A) (Arity : Z) (s : State) {struct fuel} : Result A :=
  match fuel with
  | O => OutOfFuel
  | S fuel' =>
      if (Arity =? 0)%Z then K R s
      else
        let index := length (mTrail s) in
        let r := UnifyTerms_r R index in
        let k : Continuation A :=
          fun _ => UnifyTerms fuel' (tail t0s) (tail t1s) K r (Arity - 1) in
        match t0s, t1s with
        | t0 :: _, t1 :: _ => Unify fuel' t0 t1 k r s
        | _, _ => Undefined
        end
  end.

(** ** Term constructors *)

(** [Term* mkVar()]. *)
Definition mkVar (s : State) : ptr * State :=
  new_Term (TVariable false nullptr) s.

(** [new Term()] value-initialises the cell, so the slots of [mTerms]
    that a constructor does not assign hold [nullptr]. *)
Definition empty_mTerms : list ptr := replicate Atom_capacity nullptr.

(** [Term* mkAtom(char* Name)]. *)
Definition mkAtom0 (Name : string) (s : State) : ptr * State :=
  new_Term (TAtom Name 0 empty_mTerms) s.

(** [Term* mkAtom(char* Name, Term* a0)]. *)
Definition mkAtom1 (Name : string) (a0 : ptr) (s : State) : ptr * State :=
  new_Term (TAtom Name 1 (<[0 := a0]> empty_mTerms)) s.

(** [Term* mkAtom(char* Name, Term* a0, Term* a1)]. *)
Definition mkAtom2 (Name : string) (a0 a1 : ptr) (s : State) : ptr * State :=
  new_Term (TAtom Name 2 (<[1 := a1]> (<[0 := a0]> empty_mTerms))) s.

(** The overload set [mkAtom]: a call is resolved by the number of
    [Term*] arguments; there are overloads for none, one and two, and a
    call with more arguments does not exist. *)
Definition mkAtom (Name : string) (args : list ptr) (s : State) : option (ptr * State) :=
  match args with
  | [] => Some (mkAtom0 Name s)
  | [a0] => Some (mkAtom1 Name a0 s)
  | [a0; a1] => Some (mkAtom2 Name a0 a1 s)
  | _ => None
  end.

(** ** The predicate member/2 *)

(** The retry [r] of [Member1]:
    [[index, Item, List, K, R]() { gTrail.UnWind(index); R(); }]. *)
Definition Member1_r {A : Type} (R : Retry A) (index : nat) : Retry A :=
  fun s => s' ← UnWind index s; R s'.

(** [Member0] is the clause [member(A0, [A0|_])], [Member1] the clause
    [member(A0, [_|T]) :- member(A0, T)]. *)
Fixpoint Member0 {A : Type} (fuel : nat) (Item List : ptr)
    (K : Continuation A) (R : Retry A) (s : State) {struct fuel} : Result A :=
  match fuel with
  | O => OutOfFuel
  | S fuel' =>
      let A0 := Item in
      let '(v, s) := mkVar s in
      let '(A1, s) := mkAtom2 "." Item v s in
      let index := length (mTrail s) in
      let r : Retry A :=
        fun s => s' ← UnWind index s; Member1 fuel' Item List K R s' in
      let k : Continuation A := fun R => K R in
      Unify fuel' List A1 k r s
  end
with Member1 {A : Type} (fuel : nat) (Item List : ptr)
    (K : Continuation A) (R : Retry A) (s : State) {struct fuel} : Result A :=
  match fuel with
  | O => OutOfFuel
  | S fuel' =>
      let A0 := Item in
      let '(H, s) := mkVar s in
      let '(T, s) := mkVar s in
      let '(A1, s) := mkAtom2 "." H T s in
      let index := length (mTrail s) in
      let r := Member1_r R index in
      let k : Continuation A := fun R => Member0 fuel' A0 T K R in
      Unify fuel' List A1 k r s
  end.

(** ** Print *)

(** [void Print(Term* Root)]; [Print_loop] is its [for] loop, entered
    with the loop counter [i]. *)
Fixpoint Print (fuel : nat) (Root : ptr) (s : State) {struct fuel} : Result State :=
  match fuel with
  | O => OutOfFuel
  | S fuel' =>
      t ← Deref fuel Root s;
      match load s t with
      | None => Undefined
      | Some (TAtom mName mArity mTerms) =>
          s ← Print_loop fuel' mTerms mArity 0%Z (printf (String.append mName "(") s);
          Done (printf ")" s)
      | Some (TVariable _ _) => Done (printf "X?" s)
      end
  end
with Print_loop (fuel : nat) (mTerms : list ptr) (mArity : Z) (i : Z) (s : State)
    {struct fuel} : Result State :=
  match fuel with
  | O => OutOfFuel
  | S fuel' =>
      if (i <? mArity)%Z then
        match (if (0 <=? i)%Z then mTerms !! Z.to_nat i else None) with
        | None => Undefined
        | Some t => s ← Print fuel' t s; Print_loop fuel' mTerms mArity (i + 1)%Z s
        end
      else Done s
  end.

(** ** main *)

(** The allocations at the top of [main]: [list], [list2] and [item].
    The arguments of each [mkAtom] call are evaluated left to right. *)
Definition main_terms : ptr * ptr * ptr * State :=
  let s := initial in
  let '(cat, s) := mkAtom0 "cat" s in
  let '(dog, s) := mkAtom0 "dog" s in
  let '(frog, s) := mkAtom0 "frog" s in
  let '(empty, s) := mkAtom0 "[]" s in
  let '(l2, s) := mkAtom2 "." frog empty s in
  let '(l1, s) := mkAtom2 "." dog l2 s in
  let '(list, s) := mkAtom2 "." cat l1 s in
  let '(cat, s) := mkAtom0 "cat" s in
  let '(monkey, s) := mkAtom0 "monkey" s in
  let '(frog, s) := mkAtom0 "frog" s in
  let '(empty, s) := mkAtom0 "[]" s in
  let '(l2, s) := mkAtom2 "." frog empty s in
  let '(l1, s) := mkAtom2 "." monkey l2 s in
  let '(list2, s) := mkAtom2 "." cat l1 s in
  let '(item, s) := mkVar s in
  (list, list2, item, s).

(** [int main()].  The value of the run is the state in which the
    outermost retry [[]() {}] returns. *)
Definition main (fuel : nat) : Result State :=
  let '(list, list2, item, s) := main_terms in
  Member0 fuel item list
    (fun R => Member0 fuel item list2
                (fun R s => s' ← Print fuel item s; R s') R)
    (fun s => Done s) s.

(** * Specification vocabulary *)

(** ** Cells and states *)

Definition is_var (c : option Term) : Prop :=
  exists b r, c = Some (TVariable b r).

Definition is_unbound (c : option Term) : Prop :=
  exists r, c = Some (TVariable false r).

(** Two cells agree up to the reference an unbound variable still
    carries: [Deref] never reads it. *)
Definition cell_sim (c c' : option Term) : Prop :=
  c = c' \/ (is_unbound c /\ is_unbound c').

(** [extends_by l s s']: [s'] is [s] after the variables [l] were
    bound, in this order, and possibly released again and rebound; all
    of them were unbound in [s] and nothing else changed. *)
Record extends_by (l : list ptr) (s s' : State) : Prop := {
  eb_trail : mTrail s' = mTrail s ++ l;
  eb_out : out s' = out s;
  eb_length : length (heap s') = length (heap s);
  eb_new : forall p, p ∈ l -> is_unbound (load s p) /\ is_var (load s' p);
  eb_old : forall p, p ∉ l -> cell_sim (load s p) (load s' p)
}.

(** [same_bindings s s']: same trail, same output, and every cell the
    same up to stale references of unbound variables. *)
Definition same_bindings (s s' : State) : Prop := extends_by [] s s'.

(** What [UnWind Index] leaves when it returns: the entries from
    position [Index] on are released, the last one first. *)
Definition release (t : ptr) (h : list Term) : list Term :=
  match cell_at h t with
  | Some (TVariable _ mReference) => set_cell t (TVariable false mReference) h
  | _ => h
  end.

Definition unwound (Index : nat) (s : State) : State :=
  mkState (foldr release (heap s) (drop Index (mTrail s)))
          (take Index (mTrail s)) (out s).

(** ** Outcomes of a unification *)

(** The retry that unwinds to the checkpoints [cs], first to last, and
    then calls [R]. *)
Fixpoint unwinds {A : Type} (cs : list nat) (R : Retry A) : Retry A :=
  match cs with
  | [] => R
  | c :: cs' => UnifyTerms_r (unwinds cs' R) c
  end.

(** Checkpoints between [lo] and [hi], none above the one before it. *)
Fixpoint checkpoints (lo hi : nat) (cs : list nat) : Prop :=
  match cs with
  | [] => True
  | c :: cs' => lo <= c <= hi /\ checkpoints lo c cs'
  end.

(** A call of [Unify] or [UnifyTerms] ends in one of four ways, whatever
    [K] and [R] are. *)
Inductive Outcome : Type :=
| Succeeds (cs : list nat) (s' : State)
| Fails (s' : State)
| GoesWrong
| Exhausts.

Definition deliver {A : Type} (o : Outcome) (K : Continuation A) (R : Retry A) : Result A :=
  match o with
  | Succeeds cs s' => K (unwinds cs R) s'
  | Fails s' => R s'
  | GoesWrong => Undefined
  | Exhausts => OutOfFuel
  end.

Definition outcome_ok (s : State) (o : Outcome) : Prop :=
  match o with
  | Succeeds cs s' =>
      (exists l, extends_by l s s') /\
      checkpoints (length (mTrail s)) (length (mTrail s')) cs
  | Fails s' => same_bindings s s'
  | GoesWrong | Exhausts => True
  end.

(** ** Pairs that unify in turn *)

(** [fails_at k fuel s t0s t1s s_f]: in a call of [UnifyTerms] with
    [fuel] in state [s], the first [k] pairs of arguments unify one
    after the other, each with the fuel [UnifyTerms] gives it, and the
    next pair does not: its [Unify] calls the retry, in state [s_f]. *)
Fixpoint fails_at (k fuel : nat) (s : State) (t0s t1s : list ptr)
    (s_f : State) : Prop :=
  match fuel, t0s, t1s with
  | S fuel', t0 :: t0s', t1 :: t1s' =>
      match k with
      | O =>
          forall A (K : Continuation A) (R : Retry A),
            Unify fuel' t0 t1 K R s = R s_f
      | S k' =>
          exists cs s1,
            (forall A (K : Continuation A) (R : Retry A),
                Unify fuel' t0 t1 K R s = K (unwinds cs R) s1) /\
            fails_at k' fuel' s1 t0s' t1s' s_f
      end
  | _, _, _ => False
  end.

(** [all_unify n fuel s t0s t1s cs s_n]: the [n] pairs unify one after
    the other, the last of them leaving the state [s_n]; [cs] are the
    checkpoints that [UnifyTerms] takes, the latest first. *)
Fixpoint all_unify (n fuel : nat) (s : State) (t0s t1s : list ptr)
    (cs : list nat) (s_n : State) : Prop :=
  match n with
  | O => fuel <> 0 /\ cs = [] /\ s_n = s
  | S n' =>
      match fuel, t0s, t1s with
      | S fuel', t0 :: t0s', t1 :: t1s' =>
          exists cs1 s1 cs',
            (forall A (K : Continuation A) (R : Retry A),
                Unify fuel' t0 t1 K R s = K (unwinds cs1 R) s1) /\
            all_unify n' fuel' s1 t0s' t1s' cs' s_n /\
            cs = cs' ++ [length (mTrail s)]
      | _, _, _ => False
      end
  end.

(** ** Reference chains *)

(** The link [Deref] follows from [p], if [p] is a bound variable. *)
Definition next (s : State) (p : ptr) : option ptr :=
  match load s p with
  | Some (TVariable true mReference) => Some mReference
  | _ => None
  end.

(** The term reached from [t] after [n] links. *)
Fixpoint follow (n : nat) (s : State) (t : ptr) : option ptr :=
  match n with
  | O => Some t
  | S n' => match next s t with
            | Some t' => follow n' s t'
            | None => None
            end
  end.

(** No term occurs twice on the chain from [t]. *)
Definition acyclic_chain (s : State) (t : ptr) : Prop :=
  forall i j p q, i < j -> follow i s t = Some p -> follow j s t = Some q -> p <> q.

(** Every pointer on the chain from [t] points to an allocated cell. *)
Definition valid_chain (s : State) (t : ptr) : Prop :=
  forall i p, follow i s t = Some p -> is_Some (load s p).

(** ** Ground terms *)

(** A variable-free term as a tree. *)
Inductive GTerm : Type :=
| GNode (functor : string) (args : list GTerm).

(** The cell at [p] is the root of a copy of the tree [g] in the heap. *)
Inductive repr (s : State) : ptr -> GTerm -> Prop :=
| repr_node p name args slots :
    load s p = Some (TAtom name (Z.of_nat (length args)) slots) ->
    Forall2 (repr s) (take (length args) slots) args ->
    repr s p (GNode name args).

(** Same functor, same arity, arguments pairwise structurally equal. *)
Fixpoint struct_eq (a b : GTerm) : bool :=
  match a, b with
  | GNode f1 l1, GNode f2 l2 =>
      String.eqb f1 f2 && (length l1 =? length l2) &&
      (fix all2 (l1 l2 : list GTerm) : bool :=
         match l1, l2 with
         | [], [] => true
         | x :: l1', y :: l2' => struct_eq x y && all2 l1' l2'
         | _, _ => false
         end) l1 l2
  end.

Fixpoint struct_eq_list (l1 l2 : list GTerm) : bool :=
  match l1, l2 with
  | [], [] => true
  | x :: l1', y :: l2' => struct_eq x y && struct_eq_list l1' l2'
  | _, _ => false
  end.

(** Call depth of [Unify] on a ground term. *)
Fixpoint unify_fuel (g : GTerm) : nat :=
  match g with
  | GNode _ args =>
      S ((fix terms (l : list GTerm) : nat :=
            match l with
            | [] => 1
            | a :: l' => S (Nat.max (unify_fuel a) (terms l'))
            end) args)
  end.

Fixpoint terms_fuel (l : list GTerm) : nat :=
  match l with
  | [] => 1
  | a :: l' => S (Nat.max (unify_fuel a) (terms_fuel l'))
  end.

(** ** Enumerating solutions *)

(** A caller that collects solutions: the success continuation hands
    back the state of the solution and the retry that resumes the
    search; the outermost retry reports that the search is over. *)
Inductive Answer : Type :=
| NoMore (s : State)
| Solution (s : State) (redo : State -> Result Answer).

Definition yield : Continuation Answer := fun R s => Done (Solution s R).
Definition no_more : Retry Answer := fun s => Done (NoMore s).

(** The query of [main], [member(Item, list), member(Item, list2)], with
    the innermost continuation and the outermost retry left to the
    caller. *)
Definition conjunction {A : Type} (fuel : nat)
    (K : ptr -> Continuation A) (R : Retry A) : Result A :=
  let '(list, list2, item, s) := main_terms in
  Member0 fuel item list (fun R => Member0 fuel item list2 (K item) R) R s.

(** The functor of the atom that [t] is bound to. *)
Definition bound_to (fuel : nat) (t : ptr) (s : State) : option string :=
  match Deref fuel t s with
  | Done t' => match load s t' with
               | Some (TAtom mName 0%Z _) => Some mName
               | _ => None
               end
  | _ => None
  end.

(** The variable [item] of [main]. *)
Definition main_item : ptr := let '(_, _, item, _) := main_terms in item.

(** What a caller sees who asks for one solution after the other, at
    most [redos] times after the first: the binding of [item] in each
    solution, and how the enumeration ends. *)
Inductive Trace : Type :=
| Sol (binding : option string) (rest : Trace)
| End
| More
| Wrong
| NoFuel.

Fixpoint enumerate (redos fuel : nat) (item : ptr) (r : Result Answer)
    {struct redos} : Trace :=
  match r with
  | Done (NoMore _) => End
  | Done (Solution s redo) =>
      Sol (bound_to fuel item s)
          (match redos with
           | O => More
           | S redos' => enumerate redos' fuel item (redo s)
           end)
  | Undefined => Wrong
  | OutOfFuel => NoFuel
  end.

#[global] Instance Trace_eq_dec : EqDecision Trace.
Proof. solve_decision. Defined.

(** What a run has written when it ends. *)
Definition output (r : Result State) : option string :=
  match r with
  | Done s => Some (out s)
  | _ => None
  end.

(** ** More fuel *)

(** [Result_le le r r']: the run [r'], made with at least as much fuel
    as the run [r], ends as [r] does unless [r] ran out of fuel. *)
Definition Result_le {A : Type} (le : A -> A -> Prop) (r r' : Result A) : Prop :=
  match r with
  | OutOfFuel => True
  | Undefined => r' = Undefined
  | Done a => exists a', r' = Done a' /\ le a a'
  end.

Definition Retry_le {A : Type} (le : A -> A -> Prop) (R R' : Retry A) : Prop :=
  forall s, Result_le le (R s) (R' s).

Definition Continuation_le {A : Type} (le : A -> A -> Prop)
    (K K' : Continuation A) : Prop :=
  forall R R', Retry_le le R R' -> forall s, Result_le le (K R s) (K' R' s).

(** Answers that agree as far as the first of them is determined. *)
Fixpoint Answer_le (a a' : Answer) {struct a} : Prop :=
  match a, a' with
  | NoMore s, NoMore s' => s = s'
  | Solution s redo, Solution s' redo' =>
      s = s' /\
      forall st,
        match redo st with
        | OutOfFuel => True
        | Undefined => redo' st = Undefined
        | Done b => exists b', redo' st = Done b' /\ Answer_le b b'
        end
  | _, _ => False
  end.

(** An enumeration that came to its end with every binding read. *)
Fixpoint complete (t : Trace) : Prop :=
  match t with
  | Sol (Some _) rest => complete rest
  | End => True
  | _ => False
  end.

(** ** The trail invariant *)

(** The trail lists the bound variables, each of them once. *)
Definition trail_exact (s : State) : Prop :=
  NoDup (mTrail s) /\
  forall p, p ∈ mTrail s <-> exists r, load s p = Some (TVariable true r).

(** A retry and a continuation that respect an invariant [I] of the
    state and a property [P] of the result of the run: called in a state
    that satisfies [I] they yield a result that satisfies [P], the
    continuation whenever the retry it is handed does. *)
Definition Retry_respects {A : Type} (I : State -> Prop) (P : Result A -> Prop)
    (R : Retry A) : Prop :=
  forall s, I s -> P (R s).

Definition Continuation_respects {A : Type} (I : State -> Prop)
    (P : Result A -> Prop) (K : Continuation A) : Prop :=
  forall R, Retry_respects I P R -> forall s, I s -> P (K R s).

(** The states of the answers of a run satisfy [I]. *)
Definition answers_in (I : State -> Prop) (r : Result Answer) : Prop :=
  match r with
  | Done (Solution s _) => I s
  | Done (NoMore s) => I s
  | _ => True
  end.

(** ** What Print writes *)

(** The text of a ground term: the functor, an opening parenthesis, the
    texts of the arguments one after the other, a closing parenthesis. *)
Fixpoint render (g : GTerm) : string :=
  match g with
  | GNode f args =>
      String.append f
        (String.append "("
           (String.append
              ((fix render_args (l : list GTerm) : string :=
                  match l with
                  | [] => ""
                  | a :: l' => String.append (render a) (render_args l')
                  end) args)
              ")"))
  end.

Fixpoint render_list (l : list GTerm) : string :=
  match l with
  | [] => ""
  | a :: l' => String.append (render a) (render_list l')
  end.

(** ** Lists in the heap *)

(** [is_list d s p names]: [p] is a Prolog list of constants, built from
    cells [.(e, tl)] and ended by the atom [[]]; the list cells and the
    elements may be reached through bound variables, by chains that
    [Deref] follows with fuel [d]. *)
Inductive is_list (d : nat) (s : State) : ptr -> list string -> Prop :=
| is_list_nil p c slots :
    Deref d p s = Done c ->
    load s c = Some (TAtom "[]" 0 slots) ->
    is_list d s p []
| is_list_cons p c e tl rest e' name slots names :
    Deref d p s = Done c ->
    load s c = Some (TAtom "." 2 (e :: tl :: rest)) ->
    Deref d e s = Done e' ->
    load s e' = Some (TAtom name 0 slots) ->
    is_list d s tl names ->
    is_list d s p (name :: names).

(** [is_const d s t x]: [t] dereferences to the constant [x]. *)
Definition is_const (d : nat) (s : State) (t : ptr) (x : string) : Prop :=
  exists c slots, Deref d t s = Done c /\ load s c = Some (TAtom x 0 slots).

(** [keeps s s']: every atom and every bound variable of [s] is the
    same in [s']. *)
Definition keeps (s s' : State) : Prop :=
  forall p c, load s p = Some c -> ~ is_unbound (Some c) -> load s' p = Some c.

(** [evolves s s']: the trail of [s'] is that of [s], and every cell of
    [s] is the same in [s'] up to the reference kept by an unbound
    variable; [s'] may hold cells allocated since. *)
Definition evolves (s s' : State) : Prop :=
  mTrail s' = mTrail s /\ keeps s s' /\
  forall q, is_unbound (load s q) -> is_unbound (load s' q).

(** The enumeration that yields the constants [names] in turn and then
    goes on as [rest]. *)
Definition sols (names : list string) (rest : Trace) : Trace :=
  foldr (fun name t => Sol (Some name) t) rest names.

(** The list [[cat, dog, frog]] of [main] and the state after the
    allocations of [main]. *)
Definition main_list : ptr := let '(list, _, _, _) := main_terms in list.
Definition main_state : State := let '(_, _, _, s) := main_terms in s.

(** ** Example states *)

(** [f(X)] and [f(X, Y)]. *)
Definition example_arity : ptr * ptr * State :=
  let '(X, s) := mkVar initial in
  let '(Y, s) := mkVar s in
  let '(fX, s) := mkAtom1 "f" X s in
  let '(fXY, s) := mkAtom2 "f" X Y s in
  (fX, fXY, s).

(** [f(X)] and [g(X)]. *)
Definition example_functor : ptr * ptr * State :=
  let '(X, s) := mkVar initial in
  let '(fX, s) := mkAtom1 "f" X s in
  let '(gX, s) := mkAtom1 "g" X s in
  (fX, gX, s).

(** A variable [X] and [f(X)]. *)
Definition example_fX : ptr * ptr * State :=
  let '(X, s) := mkVar initial in
  let '(fX, s) := mkAtom1 "f" X s in
  (X, fX, s).

(** A variable [X] at address 1 and the atoms [a], [b], [c] at
    addresses 2, 3, 4: the arguments of [f(X, a)] and [f(b, c)]. *)
Definition example_second_pair : State :=
  let '(X, s) := mkVar initial in
  let '(a, s) := mkAtom0 "a" s in
  let '(b, s) := mkAtom0 "b" s in
  let '(c, s) := mkAtom0 "c" s in
  s.

(** A variable [X] at address 1 and the atom [a] at address 2. *)
Definition example_var_atom : State :=
  let '(X, s) := mkVar initial in
  let '(a, s) := mkAtom0 "a" s in
  s.

(** The same after [Bind(X, a)]. *)
Definition example_bound : State :=
  Trail_Add 1 (store 1 (TVariable true 2) example_var_atom).

(** Two variables [X] at address 1 and [Y] at address 2, and the atom
    [a] at address 3. *)
Definition example_two_vars : State :=
  let '(X, s) := mkVar initial in
  let '(Y, s) := mkVar s in
  let '(a, s) := mkAtom0 "a" s in
  s.

(** [p(a, q(b))] at address 4 and a second copy of it at address 8. *)
Definition example_ground : State :=
  let '(a, s) := mkAtom0 "a" initial in
  let '(b, s) := mkAtom0 "b" s in
  let '(qb, s) := mkAtom1 "q" b s in
  let '(t, s) := mkAtom2 "p" a qb s in
  let '(a', s) := mkAtom0 "a" s in
  let '(b', s) := mkAtom0 "b" s in
  let '(qb', s) := mkAtom1 "q" b' s in
  let '(t', s) := mkAtom2 "p" a' qb' s in
  s.

Definition example_tree : GTerm :=
  GNode "p" [GNode "a" []; GNode "q" [GNode "b" []]].

(** * Proofs *)

(** ** The heap *)

Lemma cell_at_is_Some h p : is_Some (cell_at h p) <-> 0 < p <= length h.
Proof.
  destruct p as [|i]; simpl.
  - split; [intros [c Hc]; discriminate | lia].
  - rewrite lookup_lt_is_Some. lia.
Qed.

Lemma cell_at_set_cell_eq p c h : is_Some (cell_at h p) -> cell_at (set_cell p c h) p = Some c.
Proof.
  rewrite cell_at_is_Some. destruct p as [|i]; simpl; [lia|].
  intros H. apply list_lookup_insert_eq. lia.
Qed.

Lemma cell_at_set_cell_ne p q c h : p <> q -> cell_at (set_cell p c h) q = cell_at h q.
Proof.
  destruct p as [|i], q as [|j]; simpl; try reflexivity.
  intros H. apply list_lookup_insert_ne. congruence.
Qed.

Lemma length_set_cell p c h : length (set_cell p c h) = length h.
Proof. destruct p; simpl; [reflexivity | apply length_insert]. Qed.

Lemma load_is_Some s p : is_Some (load s p) <-> 0 < p <= length (heap s).
Proof. apply cell_at_is_Some. Qed.

Lemma load_store_eq p c s : is_Some (load s p) -> load (store p c s) p = Some c.
Proof. apply cell_at_set_cell_eq. Qed.

Lemma load_store_ne p q c s : p <> q -> load (store p c s) q = load s q.
Proof. apply cell_at_set_cell_ne. Qed.

(** ** Deref *)

Lemma follow_snoc n s t : follow (S n) s t = follow n s t ≫= next s.
Proof.
  revert t. induction n as [|n IH]; intros t.
  - simpl. destruct (next s t); reflexivity.
  - change (follow (S (S n)) s t)
      with (match next s t with Some t' => follow (S n) s t' | None => None end).
    destruct (next s t) as [t'|] eqn:E.
    + rewrite IH. simpl. rewrite E. reflexivity.
    + simpl. rewrite E. reflexivity.
Qed.

Lemma follow_is_Some_le n m s t :
  m <= n -> is_Some (follow n s t) -> is_Some (follow m s t).
Proof.
  induction 1 as [|n Hle IH]; [tauto|].
  intros H. apply IH. rewrite follow_snoc in H.
  destruct (follow n s t); [eauto | destruct H; discriminate].
Qed.

Lemma Deref_follow n s t r :
  follow n s t = Some r -> next s r = None -> is_Some (load s r) ->
  forall fuel, n < fuel -> Deref fuel t s = Done r.
Proof.
  revert t. induction n as [|n IH]; intros t Hf Hn [c Hc] fuel Hlt;
    (destruct fuel as [|fuel]; [lia|]); simpl in *.
  - injection Hf as ->. unfold next in Hn. rewrite Hc in *.
    destruct c as [[|] ?|]; congruence.
  - unfold next in Hf. destruct (load s t) as [[[|] ?|]|]; try discriminate.
    apply IH; eauto with lia.
Qed.

Lemma follow_bound_before n s t r :
  follow n s t = Some r ->
  forall i, i < n ->
    exists p ref, follow i s t = Some p /\ load s p = Some (TVariable true ref).
Proof.
  intros Hf i Hi.
  assert (Hs : is_Some (follow (S i) s t))
    by (eapply follow_is_Some_le; [|rewrite Hf; eauto]; lia).
  rewrite follow_snoc in Hs. destruct (follow i s t) as [p|]; simpl in Hs;
    [|destruct Hs; discriminate].
  unfold next in Hs. destruct (load s p) as [[[|] ref|]|] eqn:E;
    try (destruct Hs; discriminate). eauto.
Qed.

(** A chain that visits more cells than the heap holds visits one of
    them twice. *)
Lemma chain_pigeonhole s t :
  valid_chain s t -> acyclic_chain s t ->
  ~ (forall i, i <= length (heap s) -> is_Some (follow i s t)).
Proof.
  intros Hv Ha Hall.
  set (N := length (heap s)) in *.
  set (l := map (fun i => default 0 (follow i s t)) (seq 0 (S N))).
  assert (Hl : forall i, i <= N -> l !! i = follow i s t).
  { intros i Hi. unfold l. rewrite list_lookup_fmap, lookup_seq_lt by lia.
    simpl. destruct (Hall i Hi) as [p ->]. reflexivity. }
  assert (Hlen : length l = S N) by (unfold l; rewrite length_map, length_seq; lia).
  assert (Hnd : NoDup l).
  { apply NoDup_alt. intros i j x Hi Hj.
    assert (i <= N) by (apply lookup_lt_Some in Hi; lia).
    assert (j <= N) by (apply lookup_lt_Some in Hj; lia).
    rewrite Hl in Hi, Hj by lia.
    destruct (Nat.lt_total i j) as [Hlt|[->|Hlt]]; [|reflexivity|].
    - exfalso. eapply (Ha i j); eauto.
    - exfalso. eapply (Ha j i); eauto. }
  assert (Hsub : l ⊆+ seq 1 N).
  { apply NoDup_submseteq; [exact Hnd|].
    intros x Hx. apply list_elem_of_lookup in Hx as [i Hi].
    assert (i <= N) by (apply lookup_lt_Some in Hi; lia).
    rewrite Hl in Hi by lia. apply Hv, load_is_Some in Hi.
    apply elem_of_seq. fold N in Hi. lia. }
  apply submseteq_length in Hsub. rewrite length_seq in Hsub. lia.
Qed.

Lemma chain_ends s t :
  valid_chain s t -> acyclic_chain s t ->
  exists n r, follow n s t = Some r /\ next s r = None.
Proof.
  intros Hv Ha.
  assert (H : forall k,
    (exists n r, follow n s t = Some r /\ next s r = None) \/
    (forall i, i <= k -> is_Some (follow i s t))).
  { induction k as [|k [IH|IH]]; [| left; exact IH |].
    - right. intros i Hi. replace i with 0 by lia. simpl. eauto.
    - destruct (IH k (Nat.le_refl k)) as [p Hp].
      destruct (next s p) as [q|] eqn:Hq.
      + right. intros i Hi. destruct (decide (i = S k)) as [->|Hne].
        * rewrite follow_snoc, Hp. simpl. rewrite Hq. eauto.
        * apply IH. lia.
      + left. eauto. }
  destruct (H (length (heap s))) as [Hend|Hall]; [exact Hend|].
  exfalso. eapply chain_pigeonhole; eauto.
Qed.

(** C8.  [Deref] terminates on every term whose reference chain is
    acyclic (and runs through allocated cells only): with [n] the number
    of links on the chain, every run with more than [n] units of fuel
    returns the term [r] reached after [n] links; [r] is an unbound
    variable or an atom, and every term before it on the chain is a
    bound variable. *)
Theorem Deref_terminates (s : State) (t : ptr) :
  valid_chain s t -> acyclic_chain s t ->
  exists n r,
    follow n s t = Some r /\
    (is_unbound (load s r) \/
     exists name arity slots, load s r = Some (TAtom name arity slots)) /\
    (forall i, i < n ->
       exists p ref, follow i s t = Some p /\ load s p = Some (TVariable true ref)) /\
    (forall fuel, n < fuel -> Deref fuel t s = Done r).
Proof.
  intros Hv Ha.
  destruct (chain_ends s t Hv Ha) as (n & r & Hf & Hn).
  exists n, r. split; [exact Hf|].
  pose proof (Hv n r Hf) as [c Hc].
  split; [|split].
  - unfold next in Hn. rewrite Hc in *.
    destruct c as [[|] ref|name arity slots]; [discriminate| |].
    + left. exists ref. reflexivity.
    + right. eauto.
  - eapply follow_bound_before; eauto.
  - eapply Deref_follow; eauto.
Qed.

(** ** UnWind *)

Lemma cell_at_release t h p :
  cell_at (release t h) p =
  match cell_at h p with
  | Some (TVariable b r) => Some (TVariable (if decide (p = t) then false else b) r)
  | c => c
  end.
Proof.
  unfold release. destruct (decide (p = t)) as [->|Hne].
  - destruct (cell_at h t) as [[b r|name arity slots]|] eqn:E; try (rewrite E; reflexivity).
    apply cell_at_set_cell_eq. rewrite E. eauto.
  - destruct (cell_at h t) as [[b r|name arity slots]|] eqn:E.
    + rewrite cell_at_set_cell_ne by congruence.
      destruct (cell_at h p) as [[? ?|? ? ?]|]; reflexivity.
    + destruct (cell_at h p) as [[? ?|? ? ?]|]; reflexivity.
    + destruct (cell_at h p) as [[? ?|? ? ?]|]; reflexivity.
Qed.

Lemma cell_at_releases l h p :
  cell_at (foldr release h l) p =
  match cell_at h p with
  | Some (TVariable b r) => Some (TVariable (if decide (p ∈ l) then false else b) r)
  | c => c
  end.
Proof.
  induction l as [|t l IH]; cbn [foldr].
  - destruct (cell_at h p) as [[b r|? ? ?]|]; reflexivity.
  - rewrite cell_at_release, IH.
    destruct (cell_at h p) as [[b r|? ? ?]|]; try reflexivity.
    do 2 f_equal.
    destruct (decide (p = t)) as [->|Hne].
    + destruct (decide (t ∈ t :: l)) as [_|H]; [reflexivity|].
      exfalso. apply H. left.
    + destruct (decide (p ∈ l)) as [Hin|Hnin], (decide (p ∈ t :: l)) as [Hin'|Hnin'];
        try reflexivity.
      * exfalso. apply Hnin'. right. exact Hin.
      * exfalso. apply elem_of_cons in Hin' as [?|?]; congruence.
Qed.

Lemma length_releases l h : length (foldr release h l) = length h.
Proof.
  induction l as [|t l IH]; simpl; [reflexivity|].
  unfold release at 1.
  destruct (cell_at _ t) as [[? ?|? ? ?]|]; rewrite ?length_set_cell; exact IH.
Qed.

Lemma unwound_all s : unwound (length (mTrail s)) s = s.
Proof.
  destruct s as [h tr o]. unfold unwound. simpl.
  rewrite drop_all, firstn_all. reflexivity.
Qed.

Lemma UnWind_loop_spec pre l :
  forall fuel s,
    mTrail s = pre ++ l -> length l <= fuel ->
    (forall p, p ∈ l -> is_var (load s p)) ->
    UnWind_loop fuel (length pre) s = Done (unwound (length pre) s).
Proof.
  induction l as [|x l IH] using rev_ind; intros fuel s Htr Hfuel Hvar.
  - rewrite app_nil_r in Htr.
    assert (Hlen : (length (mTrail s) =? length pre) = true)
      by (rewrite Htr; apply Nat.eqb_refl).
    destruct fuel; simpl; rewrite Hlen, <- Htr, unwound_all; reflexivity.
  - rewrite length_app in Hfuel. simpl in Hfuel.
    destruct fuel as [|fuel]; [lia|]. simpl.
    assert (Hlen : (length (mTrail s) =? length pre) = false).
    { apply Nat.eqb_neq. rewrite Htr, !length_app. simpl. lia. }
    rewrite Hlen, Htr, app_assoc, last_snoc.
    destruct (Hvar x) as (b & r & Hx); [apply elem_of_app; right; left|].
    unfold clear_IsBound. rewrite Hx. simpl.
    rewrite IH.
    + f_equal. unfold unwound, pop_back, store. simpl.
      rewrite Htr, app_assoc, removelast_last.
      rewrite <- app_assoc, !drop_app_length, !take_app_length.
      rewrite foldr_snoc. unfold load in Hx. unfold release at 3. rewrite Hx.
      reflexivity.
    + unfold pop_back, store. simpl. rewrite Htr, app_assoc. apply removelast_last.
    + lia.
    + intros p Hp. unfold pop_back, store, load. simpl.
      destruct (Hvar p) as (b' & r' & Hp'); [apply elem_of_app; left; exact Hp|].
      destruct (decide (x = p)) as [->|Hne].
      * rewrite cell_at_set_cell_eq by (unfold load in Hx; rewrite Hx; eauto).
        red; eauto.
      * rewrite cell_at_set_cell_ne by exact Hne. red; eauto.
Qed.

(** [UnWind] to a checkpoint not above the length of the trail, when
    the entries from there on are variables. *)
Lemma UnWind_spec Index s :
  Index <= length (mTrail s) ->
  (forall p, p ∈ drop Index (mTrail s) -> is_var (load s p)) ->
  UnWind Index s = Done (unwound Index s).
Proof.
  intros Hle Hvar. unfold UnWind.
  pose proof (take_drop Index (mTrail s)) as Hsplit.
  assert (Hpre : length (take Index (mTrail s)) = Index)
    by (rewrite length_take; lia).
  pose proof (UnWind_loop_spec (take Index (mTrail s)) (drop Index (mTrail s))
                (length (mTrail s)) s) as H.
  rewrite Hpre in H. apply H.
  - symmetry. exact Hsplit.
  - rewrite length_drop. lia.
  - exact Hvar.
Qed.

Lemma load_unwound Index s p :
  load (unwound Index s) p =
  match load s p with
  | Some (TVariable b r) =>
      Some (TVariable (if decide (p ∈ drop Index (mTrail s)) then false else b) r)
  | c => c
  end.
Proof. apply cell_at_releases. Qed.

(** ** States that differ by bindings *)

Lemma is_unbound_is_var c : is_unbound c -> is_var c.
Proof. intros [r ->]. red; eauto. Qed.

Lemma cell_sim_refl c : cell_sim c c.
Proof. left. reflexivity. Qed.

Lemma cell_sim_trans c1 c2 c3 : cell_sim c1 c2 -> cell_sim c2 c3 -> cell_sim c1 c3.
Proof.
  intros [->|[H1 H2]] [->|[H3 H4]]; try (left; reflexivity); right; tauto.
Qed.

Lemma cell_sim_unbound_l c c' : cell_sim c c' -> is_unbound c' -> is_unbound c.
Proof. intros [->|[H _]] H'; assumption. Qed.

Lemma cell_sim_var_r c c' : cell_sim c c' -> is_var c -> is_var c'.
Proof. intros [->|[_ H]] H'; [assumption | apply is_unbound_is_var, H]. Qed.

Lemma extends_by_refl s : extends_by [] s s.
Proof.
  split; try reflexivity.
  - symmetry. apply app_nil_r.
  - intros p Hp. inversion Hp.
  - intros p _. apply cell_sim_refl.
Qed.

Lemma extends_by_trans l1 l2 s s1 s2 :
  extends_by l1 s s1 -> extends_by l2 s1 s2 -> extends_by (l1 ++ l2) s s2.
Proof.
  intros [T1 O1 L1 N1 D1] [T2 O2 L2 N2 D2]. split.
  - rewrite T2, T1, app_assoc. reflexivity.
  - congruence.
  - congruence.
  - intros p Hp.
    destruct (decide (p ∈ l2)) as [H2|H2], (decide (p ∈ l1)) as [H1|H1].
    + split; [apply N1, H1 | apply N2, H2].
    + split; [|apply N2, H2].
      eapply cell_sim_unbound_l; [apply D1, H1 | apply N2, H2].
    + split; [apply N1, H1|].
      eapply cell_sim_var_r; [apply D2, H2 | apply N1, H1].
    + apply elem_of_app in Hp. tauto.
  - intros p Hp. apply not_elem_of_app in Hp as [H1 H2].
    eapply cell_sim_trans; [apply D1, H1 | apply D2, H2].
Qed.

Lemma Bind_extends v t s :
  is_unbound (load s v) ->
  Bind v t s = Done (Trail_Add v (store v (TVariable true t) s)) /\
  extends_by [v] s (Trail_Add v (store v (TVariable true t) s)).
Proof.
  intros [r Hv]. unfold Bind. rewrite Hv. split; [reflexivity|]. split.
  - reflexivity.
  - reflexivity.
  - simpl. apply length_set_cell.
  - intros p Hp. apply list_elem_of_singleton in Hp as ->. split.
    + exists r. exact Hv.
    + exists true, t. apply load_store_eq. rewrite Hv. eauto.
  - intros p Hp. left. symmetry. apply load_store_ne.
    intros ->. apply Hp. left.
Qed.

Lemma UnWind_extends l s s' c :
  extends_by l s s' ->
  length (mTrail s) <= c <= length (mTrail s') ->
  UnWind c s' = Done (unwound c s') /\
  extends_by (take (c - length (mTrail s)) l) s (unwound c s').
Proof.
  intros [T O L N D] Hc.
  assert (Hdrop : drop c (mTrail s') = drop (c - length (mTrail s)) l).
  { rewrite T, drop_app. rewrite drop_ge by lia. reflexivity. }
  split.
  - apply UnWind_spec; [lia|].
    intros p Hp. rewrite Hdrop in Hp. apply N.
    eapply subseteq_drop, Hp.
  - split.
    + simpl. rewrite T, take_app. rewrite take_ge by lia. reflexivity.
    + exact O.
    + simpl. rewrite length_releases. exact L.
    + intros p Hp.
      assert (Hl : p ∈ l)
        by (eapply subseteq_take, Hp).
      destruct (N p Hl) as [Hu (b & r & Hv)]. split; [exact Hu|].
      rewrite load_unwound, Hv. red; eauto.
    + intros p Hp. rewrite load_unwound.
      destruct (decide (p ∈ l)) as [Hl|Hl].
      * destruct (N p Hl) as [Hu (b & r & Hv)]. rewrite Hv.
        assert (Hd : p ∈ drop c (mTrail s')).
        { rewrite Hdrop.
          rewrite <- (take_drop (c - length (mTrail s)) l) in Hl.
          apply elem_of_app in Hl. tauto. }
        destruct (decide (p ∈ drop c (mTrail s'))); [|contradiction].
        right. split; [exact Hu | exists r; reflexivity].
      * assert (Hd : p ∉ drop c (mTrail s')).
        { rewrite Hdrop. intros Hin. apply Hl.
          eapply subseteq_drop, Hin. }
        destruct (decide (p ∈ drop c (mTrail s'))); [contradiction|].
        specialize (D p Hl).
        destruct (load s' p) as [[b r|? ? ?]|]; exact D.
Qed.

Lemma Deref_result fuel t s r :
  Deref fuel t s = Done r ->
  is_unbound (load s r) \/
  exists name arity slots, load s r = Some (TAtom name arity slots).
Proof.
  revert t. induction fuel as [|fuel IH]; intros t; simpl; [discriminate|].
  destruct (load s t) as [[[|] ref|name arity slots]|] eqn:E; try discriminate.
  - apply IH.
  - intros [= <-]. left. exists ref. exact E.
  - intros [= <-]. right. eauto.
Qed.

(** ** Unify and UnifyTerms *)

Lemma Unify_S {A} fuel t0 t1 (K : Continuation A) (R : Retry A) s :
  Unify (S fuel) t0 t1 K R s =
  t0dr ← Deref (S fuel) t0 s;
  t1dr ← Deref (S fuel) t1 s;
  match load s t0dr with
  | None => Undefined
  | Some (TVariable _ _) => s' ← Bind t0dr t1dr s; K R s'
  | Some (TAtom mName0 mArity0 mTerms0) =>
      match load s t1dr with
      | None => Undefined
      | Some (TVariable _ _) => s' ← Bind t1dr t0dr s; K R s'
      | Some (TAtom mName1 mArity1 mTerms1) =>
          if String.eqb mName1 mName0 && (mArity1 =? mArity0)%Z
          then UnifyTerms fuel mTerms0 mTerms1 K R mArity0 s
          else R s
      end
  end.
Proof. reflexivity. Qed.

Lemma UnifyTerms_S {A} fuel t0s t1s (K : Continuation A) (R : Retry A) Arity s :
  UnifyTerms (S fuel) t0s t1s K R Arity s =
  if (Arity =? 0)%Z then K R s
  else
    match t0s, t1s with
    | t0 :: _, t1 :: _ =>
        Unify fuel t0 t1
          (fun _ => UnifyTerms fuel (tail t0s) (tail t1s) K
                      (UnifyTerms_r R (length (mTrail s))) (Arity - 1))
          (UnifyTerms_r R (length (mTrail s))) s
    | _, _ => Undefined
    end.
Proof. reflexivity. Qed.

Lemma unwinds_snoc {A} cs c (R : Retry A) :
  unwinds (cs ++ [c]) R = unwinds cs (UnifyTerms_r R c).
Proof.
  induction cs as [|c' cs IH]; simpl; [reflexivity|]. rewrite IH. reflexivity.
Qed.

Lemma checkpoints_snoc lo lo' cs c :
  forall hi, checkpoints lo' hi cs -> lo <= c <= lo' -> lo' <= hi ->
  checkpoints lo hi (cs ++ [c]).
Proof.
  induction cs as [|c' cs IH]; simpl; intros hi H Hc Hhi.
  - lia.
  - destruct H as [H1 H2]. split; [lia|]. apply IH; [exact H2 | lia | lia].
Qed.

Lemma checkpoints_weaken lo hi hi' cs :
  checkpoints lo hi cs -> hi <= hi' -> checkpoints lo hi' cs.
Proof. destruct cs as [|c cs]; simpl; [tauto|]. intros [H1 H2] Hle. split; [lia | exact H2]. Qed.

Lemma extends_by_length l s s' :
  extends_by l s s' -> length (mTrail s) <= length (mTrail s').
Proof. intros [T _ _ _ _]. rewrite T, length_app. lia. Qed.

(** The retry [r] of [UnifyTerms], called in a state reached from [s]
    by bindings alone, calls [R] in a state with the bindings of [s]. *)
Lemma UnifyTerms_r_restores l s s' :
  extends_by l s s' ->
  UnWind (length (mTrail s)) s' = Done (unwound (length (mTrail s)) s') /\
  same_bindings s (unwound (length (mTrail s)) s').
Proof.
  intros H. pose proof (extends_by_length _ _ _ H) as Hlen.
  destruct (UnWind_extends l s s' (length (mTrail s)) H) as [HU HE]; [lia|].
  split; [exact HU|]. rewrite Nat.sub_diag in HE. exact HE.
Qed.

(** Whatever [K] and [R] are, a call of [Unify] or [UnifyTerms] in
    state [s] ends in one way: it calls [K] in a state that extends [s]
    by bindings, with a retry that unwinds to checkpoints taken since
    [s] before it calls [R]; or it calls [R] with the bindings of [s];
    or it has no defined behaviour; or it runs out of fuel. *)
Lemma Unify_outcomes fuel :
  (forall t0 t1 s, exists o,
      outcome_ok s o /\
      forall A (K : Continuation A) (R : Retry A),
        Unify fuel t0 t1 K R s = deliver o K R) /\
  (forall t0s t1s Arity s, exists o,
      outcome_ok s o /\
      (Arity <> 0%Z -> forall cs s',
          o = Succeeds cs s' -> last cs = Some (length (mTrail s))) /\
      forall A (K : Continuation A) (R : Retry A),
        UnifyTerms fuel t0s t1s K R Arity s = deliver o K R).
Proof.
  induction fuel as [|fuel [IHU IHT]].
  { split; intros; exists Exhausts; simpl; repeat split; discriminate. }
  split.
  - intros t0 t1 s.
    destruct (Deref (S fuel) t0 s) as [t0dr| |] eqn:E0;
      [| exists GoesWrong; split; [exact I | intros; rewrite Unify_S, E0; reflexivity]
       | exists Exhausts; split; [exact I | intros; rewrite Unify_S, E0; reflexivity]].
    destruct (Deref (S fuel) t1 s) as [t1dr| |] eqn:E1;
      [| exists GoesWrong; split; [exact I | intros; rewrite Unify_S, E0, E1; reflexivity]
       | exists Exhausts; split; [exact I | intros; rewrite Unify_S, E0, E1; reflexivity]].
    destruct (Deref_result _ _ _ _ E0) as [Hu0|(n0 & a0 & ts0 & Ha0)].
    { destruct (Bind_extends t0dr t1dr s Hu0) as [HB HE].
      exists (Succeeds [] (Trail_Add t0dr (store t0dr (TVariable true t1dr) s))).
      split; [split; [eauto | exact I]|].
      intros A K R. rewrite Unify_S, E0, E1. simpl.
      destruct Hu0 as [r0 Hr0]. rewrite Hr0, HB. reflexivity. }
    destruct (Deref_result _ _ _ _ E1) as [Hu1|(n1 & a1 & ts1 & Ha1)].
    { destruct (Bind_extends t1dr t0dr s Hu1) as [HB HE].
      exists (Succeeds [] (Trail_Add t1dr (store t1dr (TVariable true t0dr) s))).
      split; [split; [eauto | exact I]|].
      intros A K R. rewrite Unify_S, E0, E1. simpl.
      destruct Hu1 as [r1 Hr1]. rewrite Ha0, Hr1, HB. reflexivity. }
    destruct (String.eqb n1 n0 && (a1 =? a0)%Z) eqn:Hm.
    + destruct (IHT ts0 ts1 a0 s) as (o & Hok & _ & Ho).
      exists o. split; [exact Hok|].
      intros A K R. rewrite Unify_S, E0, E1. simpl. rewrite Ha0, Ha1, Hm. apply Ho.
    + exists (Fails s). split; [apply extends_by_refl|].
      intros A K R. rewrite Unify_S, E0, E1. simpl. rewrite Ha0, Ha1, Hm. reflexivity.
  - intros t0s t1s Arity s.
    destruct (Arity =? 0)%Z eqn:HA.
    { exists (Succeeds [] s). split; [split; [exists []; apply extends_by_refl | exact I]|].
      split; [intros HA'; apply Z.eqb_eq in HA; contradiction|].
      intros A K R. rewrite UnifyTerms_S, HA. reflexivity. }
    destruct t0s as [|t0 t0s];
      [exists GoesWrong; split; [exact I|]; split; [discriminate|];
       intros; rewrite UnifyTerms_S, HA; reflexivity|].
    destruct t1s as [|t1 t1s];
      [exists GoesWrong; split; [exact I|]; split; [discriminate|];
       intros; rewrite UnifyTerms_S, HA; reflexivity|].
    destruct (IHU t0 t1 s) as (o1 & Hok1 & Ho1).
    destruct o1 as [cs1 s1|s1| |].
    + destruct Hok1 as [[l1 HE1] Hcp1].
      pose proof (extends_by_length _ _ _ HE1) as Hlen1.
      destruct (IHT t0s t1s (Arity - 1)%Z s1) as (o2 & Hok2 & _ & Ho2).
      destruct o2 as [cs2 s2|s2| |].
      * destruct Hok2 as [[l2 HE2] Hcp2].
        pose proof (extends_by_length _ _ _ HE2) as Hlen2.
        exists (Succeeds (cs2 ++ [length (mTrail s)]) s2).
        split; [split|split].
        -- exists (l1 ++ l2). eapply extends_by_trans; eauto.
        -- eapply checkpoints_snoc; [exact Hcp2 | lia | lia].
        -- intros _ cs s' [= <- <-]. apply last_snoc.
        -- intros A K R. rewrite UnifyTerms_S, HA, Ho1. simpl.
           rewrite Ho2. simpl. rewrite unwinds_snoc. reflexivity.
      * assert (HE : extends_by l1 s s2).
        { rewrite <- (app_nil_r l1). eapply extends_by_trans; eauto. }
        destruct (UnifyTerms_r_restores _ _ _ HE) as [HU HS].
        exists (Fails (unwound (length (mTrail s)) s2)).
        split; [exact HS|]. split; [discriminate|].
        intros A K R. rewrite UnifyTerms_S, HA, Ho1. simpl.
        rewrite Ho2. simpl. unfold UnifyTerms_r. rewrite HU. reflexivity.
      * exists GoesWrong. split; [exact I|]. split; [discriminate|].
        intros A K R. rewrite UnifyTerms_S, HA, Ho1. simpl. rewrite Ho2. reflexivity.
      * exists Exhausts. split; [exact I|]. split; [discriminate|].
        intros A K R. rewrite UnifyTerms_S, HA, Ho1. simpl. rewrite Ho2. reflexivity.
    + destruct (UnifyTerms_r_restores _ _ _ Hok1) as [HU HS].
      exists (Fails (unwound (length (mTrail s)) s1)).
      split; [exact HS|]. split; [discriminate|].
      intros A K R. rewrite UnifyTerms_S, HA, Ho1. simpl.
      unfold UnifyTerms_r. rewrite HU. reflexivity.
    + exists GoesWrong. split; [exact I|]. split; [discriminate|].
      intros A K R. rewrite UnifyTerms_S, HA, Ho1. reflexivity.
    + exists Exhausts. split; [exact I|]. split; [discriminate|].
      intros A K R. rewrite UnifyTerms_S, HA, Ho1. reflexivity.
Qed.

Lemma length_mTrail_unwound Index s :
  Index <= length (mTrail s) -> length (mTrail (unwound Index s)) = Index.
Proof. intros H. simpl. rewrite length_take. lia. Qed.

(** A retry that unwinds to checkpoints taken since [s], the last of
    them the checkpoint of [s] itself, calls [R] with the bindings of
    [s] from every state reached by further bindings. *)
Lemma unwinds_restores cs :
  forall l s s'',
    extends_by l s s'' ->
    checkpoints (length (mTrail s)) (length (mTrail s'')) cs ->
    last cs = Some (length (mTrail s)) ->
    exists s3, same_bindings s s3 /\
               forall A (R : Retry A), unwinds cs R s'' = R s3.
Proof.
  induction cs as [|c cs IH]; intros l s s'' HE Hcp Hlast; [discriminate|].
  destruct Hcp as [Hc Hcp].
  destruct (UnWind_extends l s s'' c HE Hc) as [HU HE'].
  destruct cs as [|c' cs].
  - injection Hlast as ->. rewrite Nat.sub_diag in HE'.
    exists (unwound (length (mTrail s)) s''). split; [exact HE'|].
    intros A R. simpl. unfold UnifyTerms_r. rewrite HU. reflexivity.
  - destruct (IH _ s (unwound c s'') HE') as (s3 & HS & H3).
    + rewrite length_mTrail_unwound by lia. exact Hcp.
    + exact Hlast.
    + exists s3. split; [exact HS|].
      intros A R. change (unwinds (c :: c' :: cs) R s'')
        with (UnifyTerms_r (unwinds (c' :: cs) R) c s'').
      unfold UnifyTerms_r. rewrite HU. simpl. apply H3.
Qed.

(** The four cases of [Unify] after dereferencing. *)
Lemma Unify_cases :
  forall A fuel t0 t1 (K : Continuation A) (R : Retry A) s t0dr t1dr,
    Deref (S fuel) t0 s = Done t0dr ->
    Deref (S fuel) t1 s = Done t1dr ->
    (is_unbound (load s t0dr) ->
     Unify (S fuel) t0 t1 K R s =
       K R (Trail_Add t0dr (store t0dr (TVariable true t1dr) s))) /\
    (forall n0 a0 ts0, load s t0dr = Some (TAtom n0 a0 ts0) ->
       (is_unbound (load s t1dr) ->
        Unify (S fuel) t0 t1 K R s =
          K R (Trail_Add t1dr (store t1dr (TVariable true t0dr) s))) /\
       (forall n1 a1 ts1, load s t1dr = Some (TAtom n1 a1 ts1) ->
          (n0 <> n1 \/ a0 <> a1 -> Unify (S fuel) t0 t1 K R s = R s) /\
          (n0 = n1 -> a0 = a1 ->
           Unify (S fuel) t0 t1 K R s = UnifyTerms fuel ts0 ts1 K R a0 s))).
Proof.
  intros A fuel t0 t1 K R s t0dr t1dr E0 E1. split.
  - intros Hu. destruct (Bind_extends t0dr t1dr s Hu) as [HB _].
    rewrite Unify_S, E0, E1. simpl. destruct Hu as [r Hr]. rewrite Hr, HB.
    reflexivity.
  - intros n0 a0 ts0 H0. split.
    + intros Hu. destruct (Bind_extends t1dr t0dr s Hu) as [HB _].
      rewrite Unify_S, E0, E1. simpl. destruct Hu as [r Hr]. rewrite H0, Hr, HB.
      reflexivity.
    + intros n1 a1 ts1 H1. split.
      * intros Hne. rewrite Unify_S, E0, E1. simpl. rewrite H0, H1.
        replace (String.eqb n1 n0 && (a1 =? a0)%Z) with false; [reflexivity|].
        symmetry. apply andb_false_iff.
        destruct Hne as [Hn|Ha]; [left | right].
        -- apply String.eqb_neq. congruence.
        -- apply Z.eqb_neq. congruence.
      * intros -> ->. rewrite Unify_S, E0, E1. simpl. rewrite H0, H1.
        rewrite String.eqb_refl, Z.eqb_refl. reflexivity.
Qed.

(** ** More fuel *)

Lemma Result_le_refl {A} (a : Result A) : Result_le eq a a.
Proof. destruct a; simpl; eauto. Qed.

Lemma Result_le_bind {A B} (le : B -> B -> Prop) (m m' : Result A)
    (f f' : A -> Result B) :
  Result_le eq m m' ->
  (forall a, Result_le le (f a) (f' a)) ->
  Result_le le (m ≫= f) (m' ≫= f').
Proof.
  intros Hm Hf. destruct m as [a| |]; simpl in *.
  - destruct Hm as (a' & -> & <-). apply Hf.
  - rewrite Hm. reflexivity.
  - exact I.
Qed.

Lemma Deref_more_fuel n :
  forall m t s, n <= m -> Result_le eq (Deref n t s) (Deref m t s).
Proof.
  induction n as [|n IH]; intros m t s Hle; [exact I|].
  destruct m as [|m]; [lia|]. simpl.
  destruct (load s t) as [[[|] ref|name arity slots]|]; simpl; eauto with lia.
Qed.

Section MoreFuel.
Context {A : Type} (le : A -> A -> Prop).

Lemma UnifyTerms_r_le (R R' : Retry A) index :
  Retry_le le R R' -> Retry_le le (UnifyTerms_r R index) (UnifyTerms_r R' index).
Proof.
  intros HR s. unfold UnifyTerms_r.
  apply Result_le_bind; [apply Result_le_refl | exact HR].
Qed.

Lemma Unify_more_fuel n :
  forall m, n <= m ->
    (forall t0 t1 (K K' : Continuation A) (R R' : Retry A) s,
        Continuation_le le K K' -> Retry_le le R R' ->
        Result_le le (Unify n t0 t1 K R s) (Unify m t0 t1 K' R' s)) /\
    (forall t0s t1s (K K' : Continuation A) (R R' : Retry A) Arity s,
        Continuation_le le K K' -> Retry_le le R R' ->
        Result_le le (UnifyTerms n t0s t1s K R Arity s)
                     (UnifyTerms m t0s t1s K' R' Arity s)).
Proof.
  induction n as [|n IH]; intros m Hle; [split; intros; exact I|].
  destruct m as [|m]; [lia|].
  destruct (IH m ltac:(lia)) as [IHU IHT].
  split.
  - intros t0 t1 K K' R R' s HK HR. rewrite !Unify_S.
    apply Result_le_bind; [apply Deref_more_fuel; lia|]. intros t0dr.
    apply Result_le_bind; [apply Deref_more_fuel; lia|]. intros t1dr.
    destruct (load s t0dr) as [[b0 r0|n0 a0 ts0]|]; [| |reflexivity].
    + apply Result_le_bind; [apply Result_le_refl|]. intros s'. apply HK, HR.
    + destruct (load s t1dr) as [[b1 r1|n1 a1 ts1]|]; [| |reflexivity].
      * apply Result_le_bind; [apply Result_le_refl|]. intros s'. apply HK, HR.
      * destruct (String.eqb n1 n0 && (a1 =? a0)%Z); [apply IHT; assumption | apply HR].
  - intros t0s t1s K K' R R' Arity s HK HR. rewrite !UnifyTerms_S.
    destruct (Arity =? 0)%Z; [apply HK, HR|].
    destruct t0s as [|t0 t0s]; [reflexivity|].
    destruct t1s as [|t1 t1s]; [reflexivity|].
    apply IHU.
    + intros R1 R1' _ s1. apply IHT; [exact HK | apply UnifyTerms_r_le, HR].
    + apply UnifyTerms_r_le, HR.
Qed.

Lemma Member_more_fuel n :
  forall m, n <= m ->
    (forall Item List (K K' : Continuation A) (R R' : Retry A) s,
        Continuation_le le K K' -> Retry_le le R R' ->
        Result_le le (Member0 n Item List K R s) (Member0 m Item List K' R' s)) /\
    (forall Item List (K K' : Continuation A) (R R' : Retry A) s,
        Continuation_le le K K' -> Retry_le le R R' ->
        Result_le le (Member1 n Item List K R s) (Member1 m Item List K' R' s)).
Proof.
  induction n as [|n IH]; intros m Hle; [split; intros; exact I|].
  destruct m as [|m]; [lia|].
  destruct (IH m ltac:(lia)) as [IH0 IH1].
  destruct (Unify_more_fuel n m ltac:(lia)) as [HU _].
  split; intros Item List K K' R R' s HK HR; cbn [Member0 Member1 mkVar mkAtom2 new_Term].
  - apply HU.
    + intros R1 R1' HR1 s1. apply HK, HR1.
    + intros s1. apply Result_le_bind; [apply Result_le_refl|].
      intros s2. apply IH1; assumption.
  - apply HU.
    + intros R1 R1' HR1 s1. apply IH0; assumption.
    + apply UnifyTerms_r_le, HR.
Qed.
End MoreFuel.

Lemma Print_more_fuel n :
  forall m, n <= m ->
    (forall Root s, Result_le eq (Print n Root s) (Print m Root s)) /\
    (forall mTerms mArity i s,
        Result_le eq (Print_loop n mTerms mArity i s) (Print_loop m mTerms mArity i s)).
Proof.
  induction n as [|n IH]; intros m Hle; [split; intros; exact I|].
  destruct m as [|m]; [lia|].
  destruct (IH m ltac:(lia)) as [IHP IHL].
  split.
  - intros Root s.
    change (Result_le eq
      (t ← Deref (S n) Root s;
       match load s t with
       | None => Undefined
       | Some (TAtom mName mArity mTerms) =>
           s ← Print_loop n mTerms mArity 0%Z (printf (String.append mName "(") s);
           Done (printf ")" s)
       | Some (TVariable _ _) => Done (printf "X?" s)
       end)
      (t ← Deref (S m) Root s;
       match load s t with
       | None => Undefined
       | Some (TAtom mName mArity mTerms) =>
           s ← Print_loop m mTerms mArity 0%Z (printf (String.append mName "(") s);
           Done (printf ")" s)
       | Some (TVariable _ _) => Done (printf "X?" s)
       end)).
    apply Result_le_bind; [apply Deref_more_fuel; lia|]. intros t.
    destruct (load s t) as [[b r|name arity slots]|]; try apply Result_le_refl.
    apply Result_le_bind; [apply IHL|]. intros s'. apply Result_le_refl.
  - intros mTerms mArity i s. cbn [Print_loop].
    destruct (i <? mArity)%Z; [|apply Result_le_refl].
    destruct (if (0 <=? i)%Z then mTerms !! Z.to_nat i else None) as [t|];
      [|reflexivity].
    apply Result_le_bind; [apply IHP|]. intros s'. apply IHL.
Qed.

Lemma main_more_fuel n m : n <= m -> Result_le eq (main n) (main m).
Proof.
  intros Hle. unfold main. destruct main_terms as [[[list list2] item] s].
  apply (Member_more_fuel eq n m Hle).
  - intros R R' HR s1. apply (Member_more_fuel eq n m Hle); [|exact HR].
    intros R2 R2' HR2 s2.
    apply Result_le_bind; [apply (Print_more_fuel n m Hle) | exact HR2].
  - intros s1. apply Result_le_refl.
Qed.

Lemma output_more_fuel r r' x :
  Result_le eq r r' -> output r = Some x -> output r' = Some x.
Proof.
  destruct r as [s| |]; try discriminate.
  intros (s' & -> & <-). tauto.
Qed.

Lemma yield_le : Continuation_le Answer_le yield yield.
Proof.
  intros R R' HR s. exists (Solution s R'). split; [reflexivity|].
  split; [reflexivity|]. intros st. exact (HR st).
Qed.

Lemma conjunction_more_fuel n m :
  n <= m ->
  Result_le Answer_le (conjunction n (fun _ => yield) no_more)
                      (conjunction m (fun _ => yield) no_more).
Proof.
  intros Hle. unfold conjunction. destruct main_terms as [[[list list2] item] s].
  apply (Member_more_fuel Answer_le n m Hle).
  - intros R R' HR s1. apply (Member_more_fuel Answer_le n m Hle); [|exact HR].
    apply yield_le.
  - intros s1. exists (NoMore s1). split; reflexivity.
Qed.

Lemma bound_to_more_fuel n m t s x :
  n <= m -> bound_to n t s = Some x -> bound_to m t s = Some x.
Proof.
  intros Hle. unfold bound_to.
  pose proof (Deref_more_fuel n m t s Hle) as H.
  destruct (Deref n t s) as [t'| |]; try discriminate.
  destruct H as (t'' & -> & <-). tauto.
Qed.

Lemma enumerate_more_fuel redos :
  forall n m item r r',
    n <= m -> Result_le Answer_le r r' ->
    complete (enumerate redos n item r) ->
    enumerate redos m item r' = enumerate redos n item r.
Proof.
  induction redos as [|redos IH]; intros n m item r r' Hle Hr Hc;
    (destruct r as [[s|s redo]| |]; [| |destruct Hc..]);
    destruct Hr as ([s'|s' redo'] & -> & Ha); try destruct Ha; subst;
    try reflexivity; cbn [enumerate complete] in *.
  - destruct (bound_to n item s'); destruct Hc.
  - destruct (bound_to n item s') as [x|] eqn:Hb; [|destruct Hc].
    rewrite (bound_to_more_fuel n m item s' x Hle Hb). f_equal.
    apply IH; [exact Hle | apply H0 | exact Hc].
Qed.

Lemma unwound_unwound C1 C2 s :
  C2 <= C1 -> unwound C2 (unwound C1 s) = unwound C2 s.
Proof.
  intros Hle. unfold unwound. simpl. f_equal.
  - rewrite <- foldr_app. f_equal.
    rewrite <- (take_drop C1 (mTrail s)) at 3.
    rewrite drop_app. f_equal.
    destruct (decide (C1 <= length (mTrail s))) as [H|H].
    + rewrite length_take. replace (C2 - C1 `min` length (mTrail s)) with 0 by lia.
      reflexivity.
    + rewrite (drop_ge (mTrail s) C1) by lia. symmetry. apply drop_nil.
  - rewrite take_take. f_equal. lia.
Qed.

(** What a call of [Unify] that behaves in one way for every [K] and
    [R] leaves behind. *)
Lemma Unify_fails_same_bindings fuel t0 t1 s s_f :
  (forall A (K : Continuation A) (R : Retry A), Unify fuel t0 t1 K R s = R s_f) ->
  same_bindings s s_f.
Proof.
  intros H.
  destruct (proj1 (Unify_outcomes fuel) t0 t1 s) as (o & Hok & Ho).
  specialize (H (option State) (fun _ _ => Done None) (fun s' => Done (Some s'))).
  rewrite Ho in H. destruct o as [cs s'|s'| |]; simpl in H; try discriminate.
  injection H as <-. exact Hok.
Qed.

Lemma Unify_succeeds_extends fuel t0 t1 s cs s1 :
  (forall A (K : Continuation A) (R : Retry A),
      Unify fuel t0 t1 K R s = K (unwinds cs R) s1) ->
  exists l, extends_by l s s1.
Proof.
  intros H.
  destruct (proj1 (Unify_outcomes fuel) t0 t1 s) as (o & Hok & Ho).
  specialize (H (option State) (fun _ s' => Done (Some s')) (fun _ => Done None)).
  rewrite Ho in H. destruct o as [cs' s'|s'| |]; simpl in H; try discriminate.
  injection H as <-. exact (proj1 Hok).
Qed.

(** When the first [k] pairs unify and the next one does not,
    [UnifyTerms] calls [R], after it has unwound the trail to the
    checkpoint of the state it started in. *)
Lemma UnifyTerms_fails_at k :
  forall fuel s t0s t1s s_f Arity,
    fails_at k fuel s t0s t1s s_f -> (Z.of_nat k < Arity)%Z ->
    (exists l, extends_by l s s_f) /\
    forall A (K : Continuation A) (R : Retry A),
      UnifyTerms fuel t0s t1s K R Arity s = R (unwound (length (mTrail s)) s_f).
Proof.
  induction k as [|k IH]; intros fuel s t0s t1s s_f Arity H HA;
    (destruct fuel as [|fuel]; [contradiction|]);
    (destruct t0s as [|t0 t0s]; [contradiction|]);
    (destruct t1s as [|t1 t1s]; [contradiction|]);
    cbn [fails_at] in H;
    assert (HA0 : (Arity =? 0)%Z = false) by (apply Z.eqb_neq; lia).
  - pose proof (Unify_fails_same_bindings _ _ _ _ _ H) as Hsb.
    destruct (UnifyTerms_r_restores _ _ _ Hsb) as [HU _].
    split; [exists []; exact Hsb|].
    intros A K R. rewrite UnifyTerms_S, HA0, H.
    unfold UnifyTerms_r. rewrite HU. reflexivity.
  - destruct H as (cs & s1 & Hs & Hrest).
    destruct (Unify_succeeds_extends _ _ _ _ _ _ Hs) as [l1 HE1].
    destruct (IH fuel s1 t0s t1s s_f (Arity - 1)%Z Hrest ltac:(lia)) as [[l' HE'] Heq].
    assert (HE : extends_by (l1 ++ l') s s_f) by (eapply extends_by_trans; eauto).
    split; [eauto|].
    intros A K R. rewrite UnifyTerms_S, HA0, Hs. cbn [tail]. rewrite Heq.
    pose proof (extends_by_length _ _ _ HE1) as Hlen1.
    pose proof (extends_by_length _ _ _ HE') as Hlen'.
    destruct (UnWind_extends _ _ _ (length (mTrail s1)) HE ltac:(lia)) as [_ HE2].
    destruct (UnifyTerms_r_restores _ _ _ HE2) as [HU _].
    unfold UnifyTerms_r. rewrite HU. cbn [mbind Result_mbind Result_bind].
    rewrite unwound_unwound by lia. reflexivity.
Qed.

(** When all [n] pairs unify, [UnifyTerms] calls [K], with the retry
    that unwinds to the checkpoints taken on the way. *)
Lemma UnifyTerms_all_unify n :
  forall fuel s t0s t1s cs s_n,
    all_unify n fuel s t0s t1s cs s_n ->
    forall A (K : Continuation A) (R : Retry A),
      UnifyTerms fuel t0s t1s K R (Z.of_nat n) s = K (unwinds cs R) s_n.
Proof.
  induction n as [|n IH]; intros fuel s t0s t1s cs s_n H A K R.
  - destruct H as (Hf & -> & ->). destruct fuel as [|fuel]; [contradiction|].
    reflexivity.
  - destruct fuel as [|fuel]; [contradiction|].
    destruct t0s as [|t0 t0s]; [contradiction|].
    destruct t1s as [|t1 t1s]; [contradiction|].
    cbn [all_unify] in H. destruct H as (cs1 & s1 & cs' & Hs & Hrest & ->).
    rewrite UnifyTerms_S.
    replace (Z.of_nat (S n) =? 0)%Z with false by (symmetry; apply Z.eqb_neq; lia).
    replace (Z.of_nat (S n) - 1)%Z with (Z.of_nat n) by lia.
    rewrite Hs. cbn [tail]. rewrite (IH _ _ _ _ _ _ Hrest), unwinds_snoc. reflexivity.
Qed.

(** * The claims *)

(** C1.  [Unify] dereferences both terms.  If the first dereferenced
    term is a variable it is bound to the second and [K] is called with
    the unchanged retry [R]; else if the second is a variable it is bound
    to the first and [K] is called with [R]; if both are atoms whose
    names or arities differ, [R] is called in the unchanged state (no
    trail entry, no binding); if names and arities agree the call
    continues as [UnifyTerms] on the argument arrays with the same [K]
    and [R].  Unifying [f(X)] with [f(X, Y)], and [f(X)] with [g(X)],
    calls [R] in the unchanged state. *)
Theorem Unify_algorithm :
  (forall A fuel t0 t1 (K : Continuation A) (R : Retry A) s t0dr t1dr,
      Deref (S fuel) t0 s = Done t0dr ->
      Deref (S fuel) t1 s = Done t1dr ->
      (is_unbound (load s t0dr) ->
       Unify (S fuel) t0 t1 K R s =
         K R (Trail_Add t0dr (store t0dr (TVariable true t1dr) s))) /\
      (forall n0 a0 ts0, load s t0dr = Some (TAtom n0 a0 ts0) ->
         (is_unbound (load s t1dr) ->
          Unify (S fuel) t0 t1 K R s =
            K R (Trail_Add t1dr (store t1dr (TVariable true t0dr) s))) /\
         (forall n1 a1 ts1, load s t1dr = Some (TAtom n1 a1 ts1) ->
            (n0 <> n1 \/ a0 <> a1 -> Unify (S fuel) t0 t1 K R s = R s) /\
            (n0 = n1 -> a0 = a1 ->
             Unify (S fuel) t0 t1 K R s = UnifyTerms fuel ts0 ts1 K R a0 s)))) /\
  (forall A fuel (K : Continuation A) (R : Retry A),
      let '(fX, fXY, s) := example_arity in
      Unify (S fuel) fX fXY K R s = R s) /\
  (forall A fuel (K : Continuation A) (R : Retry A),
      let '(fX, gX, s) := example_functor in
      Unify (S fuel) fX gX K R s = R s).
Proof.
  split; [exact Unify_cases | split; intros; reflexivity].
Qed.

Lemma Unify_algorithm_witness :
  Unify 1 1 2 yield no_more example_var_atom =
    yield no_more (Trail_Add 1 (store 1 (TVariable true 2) example_var_atom)) /\
  Unify 1 2 1 yield no_more example_var_atom =
    yield no_more (Trail_Add 1 (store 1 (TVariable true 2) example_var_atom)) /\
  Unify 1 4 3 yield no_more example_ground = no_more example_ground /\
  Unify 1 2 6 yield no_more example_ground =
    UnifyTerms 0 empty_mTerms empty_mTerms yield no_more 0%Z example_ground.
Proof.
  destruct Unify_algorithm as [H _].
  split; [|split; [|split]].
  - refine (proj1 (H Answer 0 1 2 yield no_more example_var_atom 1 2 eq_refl eq_refl) _).
    exists 0. reflexivity.
  - refine (proj1 (proj2 (H Answer 0 2 1 yield no_more example_var_atom 2 1 eq_refl eq_refl)
                     "a" 0%Z empty_mTerms eq_refl) _).
    exists 0. reflexivity.
  - refine (proj1 (proj2 (proj2 (H Answer 0 4 3 yield no_more example_ground 4 3 eq_refl eq_refl)
                     "p" 2%Z _ eq_refl) "q" 1%Z _ eq_refl) _).
    left. discriminate.
  - refine (proj2 (proj2 (proj2 (H Answer 0 2 6 yield no_more example_ground 2 6 eq_refl eq_refl)
                     "b" 0%Z _ eq_refl) "b" 0%Z _ eq_refl) eq_refl eq_refl).
Defined.

Lemma example_bound_chain i :
  follow i example_bound 1 =
  match i with 0 => Some 1 | 1 => Some 2 | _ => None end.
Proof. destruct i as [|[|i]]; reflexivity. Qed.

Lemma Deref_terminates_witness :
  exists n r,
    follow n example_bound 1 = Some r /\
    (is_unbound (load example_bound r) \/
     exists name arity slots, load example_bound r = Some (TAtom name arity slots)) /\
    (forall i, i < n ->
       exists p ref, follow i example_bound 1 = Some p /\
                     load example_bound p = Some (TVariable true ref)) /\
    (forall fuel, n < fuel -> Deref fuel 1 example_bound = Done r).
Proof.
  apply (Deref_terminates example_bound 1).
  - intros i p. rewrite example_bound_chain.
    destruct i as [|[|i]]; intros [= <-]; simpl; eauto.
  - intros i j p q Hlt. rewrite !example_bound_chain.
    destruct i as [|[|i]], j as [|[|j]]; try lia; try discriminate.
    intros [= <-] [= <-]. discriminate.
Defined.

(** C2.  [UnifyTerms] with arity zero calls [K] with [R].  Otherwise it
    takes the checkpoint [index] of the trail, builds the retry [r] that
    unwinds to [index] and then calls [R], builds the continuation [k]
    that unifies the remaining pairs with [K] and with [r] in place of
    the retry it is handed, and calls [Unify] on the first pair with [k]
    and [r].  Consequently: when the first [k] pairs unify and the next
    pair does not, [UnifyTerms] calls [R], whatever [K] and [R] are, and
    it calls [R] in the state that [UnWind] to the checkpoint of the
    start leaves: the trail is the trail of the start and every binding
    made since is released.  When all pairs unify it calls [K], with the
    retry that unwinds to the checkpoints taken on the way.  In every
    case a call to [UnifyTerms] in state [s] ends in one way whatever
    [K] and [R] are. *)
Theorem UnifyTerms_algorithm :
  (forall A fuel t0s t1s (K : Continuation A) (R : Retry A) s,
      UnifyTerms (S fuel) t0s t1s K R 0 s = K R s) /\
  (forall A fuel t0 t0s t1 t1s (K : Continuation A) (R : Retry A) Arity s,
      Arity <> 0%Z ->
      let index := length (mTrail s) in
      let r : Retry A := fun s' => s'' ← UnWind index s'; R s'' in
      let k : Continuation A :=
        fun _ => UnifyTerms fuel t0s t1s K r (Arity - 1) in
      UnifyTerms (S fuel) (t0 :: t0s) (t1 :: t1s) K R Arity s =
        Unify fuel t0 t1 k r s) /\
  (forall fuel t0s t1s Arity s, exists o,
      (forall A (K : Continuation A) (R : Retry A),
          UnifyTerms fuel t0s t1s K R Arity s = deliver o K R) /\
      match o with
      | Fails s' => same_bindings s s'
      | Succeeds cs s' => exists l, extends_by l s s'
      | GoesWrong | Exhausts => True
      end) /\
  (forall k fuel t0s t1s Arity s s_f,
      fails_at k fuel s t0s t1s s_f -> (Z.of_nat k < Arity)%Z ->
      let s' := unwound (length (mTrail s)) s_f in
      (forall A (K : Continuation A) (R : Retry A),
          UnifyTerms fuel t0s t1s K R Arity s = R s') /\
      UnWind (length (mTrail s)) s_f = Done s' /\
      mTrail s' = mTrail s /\
      same_bindings s s') /\
  (forall n fuel t0s t1s s cs s_n,
      all_unify n fuel s t0s t1s cs s_n ->
      forall A (K : Continuation A) (R : Retry A),
        UnifyTerms fuel t0s t1s K R (Z.of_nat n) s = K (unwinds cs R) s_n).
Proof.
  split; [|split; [|split; [|split]]].
  - intros. reflexivity.
  - intros A fuel t0 t0s t1 t1s K R Arity s HA index r k.
    rewrite UnifyTerms_S. apply Z.eqb_neq in HA. rewrite HA. reflexivity.
  - intros fuel t0s t1s Arity s.
    destruct (proj2 (Unify_outcomes fuel) t0s t1s Arity s) as (o & Hok & _ & Ho).
    exists o. split; [exact Ho|].
    destruct o as [cs s'|s'| |]; simpl in Hok; tauto.
  - intros k fuel t0s t1s Arity s s_f H HA s'. subst s'.
    destruct (UnifyTerms_fails_at k fuel s t0s t1s s_f Arity H HA) as [[l HE] Heq].
    destruct (UnifyTerms_r_restores _ _ _ HE) as [HU HS].
    split; [exact Heq|]. split; [exact HU|]. split; [|exact HS].
    destruct HS as [T _ _ _ _]. rewrite T. apply app_nil_r.
  - intros n fuel t0s t1s s cs s_n H A K R.
    apply (UnifyTerms_all_unify n); exact H.
Qed.

Lemma UnifyTerms_algorithm_witness :
  (UnifyTerms 10 [1; 3] [5; 7] yield no_more 2 example_ground =
     Unify 9 1 5
       (fun _ => UnifyTerms 9 [3] [7] yield
                   (fun s' => s'' ← UnWind 0 s'; no_more s'') (2 - 1))
       (fun s' => s'' ← UnWind 0 s'; no_more s'') example_ground) /\
  ((forall A (K : Continuation A) (R : Retry A),
       UnifyTerms 3 [1; 2] [3; 4] K R 2 example_second_pair =
         R (store 1 (TVariable false 3) example_second_pair)) /\
   UnWind 0 (Trail_Add 1 (store 1 (TVariable true 3) example_second_pair)) =
     Done (store 1 (TVariable false 3) example_second_pair) /\
   mTrail (store 1 (TVariable false 3) example_second_pair) = [] /\
   same_bindings example_second_pair
     (store 1 (TVariable false 3) example_second_pair)) /\
  (forall A (K : Continuation A) (R : Retry A),
      UnifyTerms 6 [1; 3] [5; 7] K R 2 example_ground =
        K (unwinds [0; 0] R) example_ground) /\
  UnifyTerms 3 [1; 2] [3; 4] yield no_more 2 example_second_pair =
    Done (NoMore (store 1 (TVariable false 3) example_second_pair)) /\
  UnifyTerms 10 [1; 3] [5; 7] yield no_more 2 example_ground =
    Done (Solution example_ground (unwinds [0; 0] no_more)).
Proof.
  destruct UnifyTerms_algorithm as (_ & Hrec & _ & Hfail & Hall).
  assert (Hf : fails_at 1 3 example_second_pair [1; 2] [3; 4]
                 (Trail_Add 1 (store 1 (TVariable true 3) example_second_pair))).
  { exists [], (Trail_Add 1 (store 1 (TVariable true 3) example_second_pair)).
    split; [intros; reflexivity|]. intros A K R. reflexivity. }
  assert (Ha : forall fuel, all_unify 2 (6 + fuel) example_ground [1; 3] [5; 7]
                              [0; 0] example_ground).
  { intros fuel. exists [], example_ground, [0].
    split; [intros; reflexivity|]. split; [|reflexivity].
    exists [0], example_ground, [].
    split; [intros; reflexivity|]. split; [|reflexivity].
    split; [discriminate|]. split; reflexivity. }
  split; [|split; [|split; [|split]]].
  - refine (Hrec Answer 9 1 [3] 5 [7] yield no_more 2%Z example_ground _).
    discriminate.
  - exact (Hfail 1 3 [1; 2] [3; 4] 2%Z example_second_pair _ Hf eq_refl).
  - exact (Hall 2 6 [1; 3] [5; 7] example_ground _ example_ground (Ha 0)).
  - exact (proj1 (Hfail 1 3 [1; 2] [3; 4] 2%Z example_second_pair _ Hf eq_refl)
             Answer yield no_more).
  - exact (Hall 2 10 [1; 3] [5; 7] example_ground _ example_ground (Ha 4)
             Answer yield no_more).
Defined.

(** C3.  A retry built from the checkpoint [C], like the retries [r] of
    [UnifyTerms] and of [Member1], called in a state whose trail has at
    least [C] entries: its unwind step returns, and [R] is then called
    in a state whose trail has exactly [C] entries, the first [C] of the
    trail before, and in which every variable recorded after [C] is
    unbound.  On the failure paths of the engine: the retry that a
    successful [UnifyTerms] hands to [K] calls [R] with the trail and the
    bindings that [UnifyTerms] started from, in whatever state reached by
    further bindings it is called. *)
Theorem retry_restores_trail :
  (forall A (R : Retry A) C s,
      C <= length (mTrail s) ->
      (forall p, p ∈ drop C (mTrail s) -> is_var (load s p)) ->
      UnWind C s = Done (unwound C s) /\
      UnifyTerms_r R C s = R (unwound C s) /\
      Member1_r R C s = R (unwound C s) /\
      length (mTrail (unwound C s)) = C /\
      mTrail (unwound C s) = take C (mTrail s) /\
      (forall p, p ∈ drop C (mTrail s) -> is_unbound (load (unwound C s) p))) /\
  (forall fuel t0s t1s Arity s,
      Arity <> 0%Z ->
      exists o,
        (forall A (K : Continuation A) (R : Retry A),
            UnifyTerms fuel t0s t1s K R Arity s = deliver o K R) /\
        forall cs s', o = Succeeds cs s' ->
          forall l s'', extends_by l s' s'' ->
            exists s3,
              (forall A (R : Retry A), unwinds cs R s'' = R s3) /\
              mTrail s3 = mTrail s /\
              same_bindings s s3).
Proof.
  split.
  - intros A R C s HC Hvar.
    pose proof (UnWind_spec C s HC Hvar) as HU.
    split; [exact HU|].
    split; [unfold UnifyTerms_r; rewrite HU; reflexivity|].
    split; [unfold Member1_r; rewrite HU; reflexivity|].
    split; [apply length_mTrail_unwound, HC|].
    split; [reflexivity|].
    intros p Hp. rewrite load_unwound.
    destruct (Hvar p Hp) as (b & r & ->).
    destruct (decide (p ∈ drop C (mTrail s))); [|contradiction].
    exists r. reflexivity.
  - intros fuel t0s t1s Arity s HA.
    destruct (proj2 (Unify_outcomes fuel) t0s t1s Arity s) as (o & Hok & Hlast & Ho).
    exists o. split; [exact Ho|].
    intros cs s' -> l s'' HE. destruct Hok as [[l' HE'] Hcp].
    destruct (unwinds_restores cs (l' ++ l) s s'') as (s3 & HS & H3).
    + eapply extends_by_trans; eauto.
    + eapply checkpoints_weaken; [exact Hcp|]. eapply extends_by_length, HE.
    + eapply Hlast; eauto.
    + exists s3. split; [exact H3|]. split; [|exact HS].
      destruct HS as [T _ _ _ _]. rewrite T. apply app_nil_r.
Qed.

Lemma retry_restores_trail_witness :
  UnWind 0 example_bound = Done (unwound 0 example_bound) /\
  UnifyTerms_r no_more 0 example_bound = no_more (unwound 0 example_bound) /\
  Member1_r no_more 0 example_bound = no_more (unwound 0 example_bound) /\
  length (mTrail (unwound 0 example_bound)) = 0 /\
  mTrail (unwound 0 example_bound) = take 0 (mTrail example_bound) /\
  (forall p, p ∈ drop 0 (mTrail example_bound) ->
             is_unbound (load (unwound 0 example_bound) p)).
Proof.
  refine (proj1 retry_restores_trail Answer no_more 0 example_bound _ _).
  - simpl. lia.
  - intros p Hp. apply list_elem_of_singleton in Hp as ->.
    exists true, 2. reflexivity.
Defined.

(** C6, as the code has it.  Unwinding to a checkpoint [Index] not above
    the length of the trail clears the bound flag of every variable
    recorded from position [Index] on, the most recent first, and leaves
    the first [Index] entries of the trail.  The reference of a released
    variable is not cleared: every variable keeps the reference it had,
    and no other cell changes. *)
Theorem UnWind_releases (Index : nat) (s : State) :
  Index <= length (mTrail s) ->
  (forall p, p ∈ drop Index (mTrail s) -> is_var (load s p)) ->
  exists s',
    UnWind Index s = Done s' /\
    mTrail s' = take Index (mTrail s) /\
    heap s' = foldr release (heap s) (drop Index (mTrail s)) /\
    (forall p, p ∈ drop Index (mTrail s) -> is_unbound (load s' p)) /\
    (forall p b r, load s p = Some (TVariable b r) ->
                   exists b', load s' p = Some (TVariable b' r)) /\
    (forall p, p ∉ drop Index (mTrail s) -> load s' p = load s p).
Proof.
  intros HC Hvar. exists (unwound Index s).
  split; [apply UnWind_spec; assumption|].
  split; [reflexivity|]. split; [reflexivity|].
  split; [|split].
  - intros p Hp. rewrite load_unwound.
    destruct (Hvar p Hp) as (b & r & ->).
    destruct (decide (p ∈ drop Index (mTrail s))); [|contradiction].
    exists r. reflexivity.
  - intros p b r Hp. rewrite load_unwound, Hp. eauto.
  - intros p Hp. rewrite load_unwound.
    destruct (load s p) as [[b r|? ? ?]|]; try reflexivity.
    destruct (decide (p ∈ drop Index (mTrail s))); [contradiction | reflexivity].
Qed.

Lemma UnWind_releases_witness :
  exists s',
    UnWind 0 example_bound = Done s' /\
    mTrail s' = take 0 (mTrail example_bound) /\
    heap s' = foldr release (heap example_bound) (drop 0 (mTrail example_bound)) /\
    (forall p, p ∈ drop 0 (mTrail example_bound) -> is_unbound (load s' p)) /\
    (forall p b r, load example_bound p = Some (TVariable b r) ->
                   exists b', load s' p = Some (TVariable b' r)) /\
    (forall p, p ∉ drop 0 (mTrail example_bound) -> load s' p = load example_bound p).
Proof.
  apply (UnWind_releases 0 example_bound).
  - simpl. lia.
  - intros p Hp. apply list_elem_of_singleton in Hp as ->.
    exists true, 2. reflexivity.
Defined.

(** C6, as stated, fails: after [Bind(X, a)] and [UnWind(0)] the variable
    [X] is unbound and still refers to [a]. *)
Lemma UnWind_keeps_reference :
  exists s',
    UnWind 0 example_bound = Done s' /\
    load s' 1 = Some (TVariable false 2) /\
    2 <> nullptr /\
    ~ (forall p r, load s' p = Some (TVariable false r) -> r = nullptr).
Proof.
  eexists. split; [reflexivity|]. split; [reflexivity|].
  split; [discriminate|].
  intros H. specialize (H 1 2 eq_refl). discriminate.
Qed.

(** C5.  With enough fuel (12 units or more), the query
    [member(Item, [cat, dog, frog]), member(Item, [cat, monkey, frog])]
    of [main] yields [Item = cat], then on retry [Item = frog], and the
    retry after that calls the outermost retry: there is no third
    solution.  [main] itself prints [cat()] and then [frog()] and
    returns. *)
Theorem member_conjunction_solutions (fuel : nat) :
  12 <= fuel ->
  enumerate 5 fuel main_item (conjunction fuel (fun _ => yield) no_more) =
    Sol (Some "cat") (Sol (Some "frog") End) /\
  output (main fuel) = Some "cat()frog()".
Proof.
  intros Hfuel.
  assert (H12 : enumerate 5 12 main_item (conjunction 12 (fun _ => yield) no_more) =
                  Sol (Some "cat") (Sol (Some "frog") End)) by (vm_compute; reflexivity).
  assert (M12 : output (main 12) = Some "cat()frog()") by (vm_compute; reflexivity).
  split.
  - rewrite <- H12.
    apply (enumerate_more_fuel 5 12 fuel main_item
             (conjunction 12 (fun _ => yield) no_more)
             (conjunction fuel (fun _ => yield) no_more) Hfuel).
    + apply conjunction_more_fuel, Hfuel.
    + rewrite H12. exact I.
  - exact (output_more_fuel (main 12) (main fuel) "cat()frog()"
             (main_more_fuel 12 fuel Hfuel) M12).
Qed.

Lemma member_conjunction_solutions_witness :
  enumerate 5 12 main_item (conjunction 12 (fun _ => yield) no_more) =
    Sol (Some "cat") (Sol (Some "frog") End) /\
  output (main 12) = Some "cat()frog()".
Proof. apply (member_conjunction_solutions 12). lia. Defined.

(** C10.  When both arguments dereference to unbound variables, [Unify]
    binds the variable of the first argument to the variable of the
    second: the cell of the first and the trail change, the cell of the
    second does not.  The variable of the second argument is bound, to
    the term of the first, when the first dereferences to an atom. *)
Theorem Unify_binding_direction :
  forall A fuel t0 t1 (K : Continuation A) (R : Retry A) s v0 v1,
    Deref (S fuel) t0 s = Done v0 ->
    Deref (S fuel) t1 s = Done v1 ->
    is_unbound (load s v1) ->
    (is_unbound (load s v0) ->
     let s' := Trail_Add v0 (store v0 (TVariable true v1) s) in
     Unify (S fuel) t0 t1 K R s = K R s' /\
     load s' v0 = Some (TVariable true v1) /\
     mTrail s' = mTrail s ++ [v0] /\
     (v1 <> v0 -> load s' v1 = load s v1)) /\
    (forall name arity slots,
        load s v0 = Some (TAtom name arity slots) ->
        let s' := Trail_Add v1 (store v1 (TVariable true v0) s) in
        Unify (S fuel) t0 t1 K R s = K R s' /\
        load s' v1 = Some (TVariable true v0) /\
        load s' v0 = load s v0 /\
        mTrail s' = mTrail s ++ [v1]).
Proof.
  intros A fuel t0 t1 K R s v0 v1 E0 E1 Hu1.
  destruct (Unify_cases A fuel t0 t1 K R s v0 v1 E0 E1) as [Hvar Hatom].
  split.
  - intros Hu0 s'. split; [apply Hvar, Hu0|].
    split; [|split].
    + apply load_store_eq. destruct Hu0 as [r ->]. eauto.
    + reflexivity.
    + intros Hne. apply load_store_ne. congruence.
  - intros name arity slots Ha s'.
    split; [apply (proj1 (Hatom name arity slots Ha)), Hu1|].
    split; [|split].
    + apply load_store_eq. destruct Hu1 as [r ->]. eauto.
    + apply load_store_ne. intros ->. destruct Hu1 as [r Hr]. congruence.
    + reflexivity.
Qed.

Lemma Unify_binding_direction_witness :
  (let s' := Trail_Add 1 (store 1 (TVariable true 2) example_two_vars) in
   Unify 1 1 2 yield no_more example_two_vars = yield no_more s' /\
   load s' 1 = Some (TVariable true 2) /\
   mTrail s' = mTrail example_two_vars ++ [1] /\
   (2 <> 1 -> load s' 2 = load example_two_vars 2)) /\
  (let s' := Trail_Add 2 (store 2 (TVariable true 3) example_two_vars) in
   Unify 1 3 2 yield no_more example_two_vars = yield no_more s' /\
   load s' 2 = Some (TVariable true 3) /\
   load s' 3 = load example_two_vars 3 /\
   mTrail s' = mTrail example_two_vars ++ [2]).
Proof.
  split.
  - refine (proj1 (Unify_binding_direction Answer 0 1 2 yield no_more
                     example_two_vars 1 2 eq_refl eq_refl _) _);
      exists 0; reflexivity.
  - refine (proj2 (Unify_binding_direction Answer 0 3 2 yield no_more
                     example_two_vars 3 2 eq_refl eq_refl _)
                  "a" 0%Z empty_mTerms eq_refl).
    exists 0. reflexivity.
Defined.

Lemma Deref_self_reference s X :
  load s X = Some (TVariable true X) -> forall fuel, Deref fuel X s = OutOfFuel.
Proof.
  intros H fuel. induction fuel as [|fuel IH]; simpl; [reflexivity|].
  rewrite H. exact IH.
Qed.

(** C7 on the code, at a fresh variable [X]: [Unify(X, X, K, R)] calls
    [K] with [R], but only after [Bind(X, X)]: the trail, empty before,
    holds [X], and [X] is bound to itself, so that [Deref(X)] no longer
    terminates.  [Unify(f(X), f(X), K, R)] ends the same way. *)
Theorem Unify_same_variable :
  (forall A fuel (K : Continuation A) (R : Retry A),
      let '(X, s) := mkVar initial in
      let s' := Trail_Add X (store X (TVariable true X) s) in
      Unify (S fuel) X X K R s = K R s' /\
      mTrail s = [] /\
      mTrail s' = [X] /\
      load s' X = Some (TVariable true X) /\
      forall fuel', Deref fuel' X s' = OutOfFuel) /\
  (forall A fuel (K : Continuation A) (R : Retry A),
      let '(X, fX, s) := example_fX in
      let s' := Trail_Add X (store X (TVariable true X) s) in
      Unify (S (S (S fuel))) fX fX K R s = K (unwinds [0] R) s' /\
      mTrail s = [] /\
      mTrail s' = [X] /\
      load s' X = Some (TVariable true X) /\
      forall fuel', Deref fuel' X s' = OutOfFuel).
Proof.
  split; intros A fuel K R; simpl;
    repeat split; apply Deref_self_reference; reflexivity.
Qed.

Lemma load_new_Term c s :
  load (snd (new_Term c s)) (fst (new_Term c s)) = Some c /\
  forall q, q <> fst (new_Term c s) -> load (snd (new_Term c s)) q = load s q.
Proof.
  unfold load, new_Term. simpl. split.
  - apply list_lookup_middle. reflexivity.
  - intros [|j] Hq; [reflexivity|]. simpl.
    destruct (decide (j < length (heap s))) as [Hlt|Hge].
    + apply lookup_app_l. exact Hlt.
    + rewrite !lookup_ge_None_2; [reflexivity | lia |].
      rewrite length_app. simpl. assert (j <> length (heap s)) by congruence. lia.
Qed.

(** C9, as the code has it.  [mkAtom] builds an atom from a name and
    none, one or two argument terms: it allocates one cell whose arity
    is the number of arguments and whose [mTerms] array of 10 slots
    holds the arguments in order, followed by null pointers; no other
    cell changes.  There is no [mkAtom] for three or more arguments. *)
Theorem mkAtom_builds (Name : string) (args : list ptr) (s : State) :
  (length args <= 2 ->
   exists p s',
     mkAtom Name args s = Some (p, s') /\
     load s' p = Some (TAtom Name (Z.of_nat (length args))
                         (args ++ replicate (Atom_capacity - length args) nullptr)) /\
     load s p = None /\
     forall q, q <> p -> load s' q = load s q) /\
  (2 < length args -> mkAtom Name args s = None).
Proof.
  split.
  - intros Hlen.
    assert (Hfresh : load s (S (length (heap s))) = None).
    { unfold load. simpl. apply lookup_ge_None_2. lia. }
    destruct args as [|a0 [|a1 [|a2 args]]]; [| | |simpl in Hlen; lia]; simpl.
    + exists (fst (mkAtom0 Name s)), (snd (mkAtom0 Name s)).
      split; [reflexivity|].
      split; [exact (proj1 (load_new_Term (TAtom Name 0 empty_mTerms) s))|].
      split; [exact Hfresh|].
      exact (proj2 (load_new_Term (TAtom Name 0 empty_mTerms) s)).
    + exists (fst (mkAtom1 Name a0 s)), (snd (mkAtom1 Name a0 s)).
      split; [reflexivity|].
      split; [exact (proj1 (load_new_Term (TAtom Name 1 (<[0 := a0]> empty_mTerms)) s))|].
      split; [exact Hfresh|].
      exact (proj2 (load_new_Term (TAtom Name 1 (<[0 := a0]> empty_mTerms)) s)).
    + exists (fst (mkAtom2 Name a0 a1 s)), (snd (mkAtom2 Name a0 a1 s)).
      split; [reflexivity|].
      split; [exact (proj1 (load_new_Term (TAtom Name 2 (<[1 := a1]> (<[0 := a0]> empty_mTerms))) s))|].
      split; [exact Hfresh|].
      exact (proj2 (load_new_Term (TAtom Name 2 (<[1 := a1]> (<[0 := a0]> empty_mTerms))) s)).
  - intros Hlen. destruct args as [|a0 [|a1 [|a2 args]]]; simpl in *; try lia.
    reflexivity.
Qed.

Lemma mkAtom_builds_witness :
  (exists p s',
     mkAtom "f" [1; 2] example_two_vars = Some (p, s') /\
     load s' p = Some (TAtom "f" 2 ([1; 2] ++ replicate (Atom_capacity - 2) nullptr)) /\
     load example_two_vars p = None /\
     forall q, q <> p -> load s' q = load example_two_vars q) /\
  mkAtom "f" [1; 2; 3] example_two_vars = None.
Proof.
  split.
  - apply (proj1 (mkAtom_builds "f" [1; 2] example_two_vars)). simpl. lia.
  - apply (proj2 (mkAtom_builds "f" [1; 2; 3] example_two_vars)). simpl. lia.
Defined.

(** C9, as stated, fails: no compound term of arity three can be built. *)
Lemma mkAtom_three_arguments :
  mkAtom "f" [1; 2; 3] example_two_vars = None /\
  ~ (forall Name args s, exists p s' slots,
        mkAtom Name args s = Some (p, s') /\
        load s' p = Some (TAtom Name (Z.of_nat (length args)) slots) /\
        take (length args) slots = args).
Proof.
  split; [reflexivity|].
  intros H. destruct (H "f" [1; 2; 3] example_two_vars) as (p & s' & slots & Hm & _).
  discriminate.
Qed.

(** ** Ground terms *)

Lemma struct_eq_GNode f1 l1 f2 l2 :
  struct_eq (GNode f1 l1) (GNode f2 l2) =
  String.eqb f1 f2 && (length l1 =? length l2) && struct_eq_list l1 l2.
Proof. reflexivity. Qed.

Lemma unify_fuel_GNode f l : unify_fuel (GNode f l) = S (terms_fuel l).
Proof. reflexivity. Qed.

Lemma GTerm_nested_ind (P : GTerm -> Prop) :
  (forall f args, Forall P args -> P (GNode f args)) -> forall g, P g.
Proof.
  intros H. fix IH 1. intros [f args]. apply H.
  induction args as [|a args IHargs]; constructor; [apply IH | exact IHargs].
Qed.

Lemma struct_eq_list_spec l1 :
  Forall (fun a => forall b, struct_eq a b = true <-> a = b) l1 ->
  forall l2, struct_eq_list l1 l2 = true <-> l1 = l2.
Proof.
  induction 1 as [|a l1 Ha _ IH]; intros [|b l2]; simpl;
    try (split; [discriminate|discriminate]); [tauto|].
  rewrite andb_true_iff, Ha, IH. split; [intros [-> ->]; reflexivity|].
  intros [= -> ->]. tauto.
Qed.

(** [struct_eq] decides equality of trees. *)
Lemma struct_eq_spec a : forall b, struct_eq a b = true <-> a = b.
Proof.
  induction a as [f1 l1 IH] using GTerm_nested_ind. intros [f2 l2].
  rewrite struct_eq_GNode, !andb_true_iff, String.eqb_eq, Nat.eqb_eq.
  rewrite (struct_eq_list_spec l1 IH). split.
  - intros [[-> _] ->]. reflexivity.
  - intros [= -> ->]. tauto.
Qed.

Lemma UnWind_noop s : UnWind (length (mTrail s)) s = Done s.
Proof.
  unfold UnWind. generalize (length (mTrail s)) at 1. intros fuel.
  destruct fuel; simpl; rewrite Nat.eqb_refl; reflexivity.
Qed.

Lemma unwinds_noop {A} cs (R : Retry A) s :
  Forall (eq (length (mTrail s))) cs -> unwinds cs R s = R s.
Proof.
  induction 1 as [|c cs <- _ IH]; simpl; [reflexivity|].
  unfold UnifyTerms_r. rewrite UnWind_noop. exact IH.
Qed.

Lemma Deref_atom fuel s p name arity slots :
  load s p = Some (TAtom name arity slots) -> Deref (S fuel) p s = Done p.
Proof. intros H. simpl. rewrite H. reflexivity. Qed.

(** On ground terms unification binds nothing: every checkpoint is the
    length of the trail, and [K] or [R] is called in the state [s] the
    call started in. *)
Lemma Unify_ground s fuel :
  (forall ga gb pa pb,
      unify_fuel ga <= fuel -> repr s pa ga -> repr s pb gb ->
      exists cs, Forall (eq (length (mTrail s))) cs /\
        forall A (K : Continuation A) (R : Retry A),
          Unify fuel pa pb K R s =
            if struct_eq ga gb then K (unwinds cs R) s else R s) /\
  (forall gas gbs pas pbs,
      terms_fuel gas <= fuel -> length gas = length gbs ->
      Forall2 (repr s) (take (length gas) pas) gas ->
      Forall2 (repr s) (take (length gbs) pbs) gbs ->
      exists cs, Forall (eq (length (mTrail s))) cs /\
        forall A (K : Continuation A) (R : Retry A),
          UnifyTerms fuel pas pbs K R (Z.of_nat (length gas)) s =
            if struct_eq_list gas gbs then K (unwinds cs R) s else R s).
Proof.
  induction fuel as [|fuel [IHU IHT]].
  { split.
    - intros [f l] gb pa pb Hf. rewrite unify_fuel_GNode in Hf. lia.
    - intros [|a l] gbs pas pbs Hf; simpl in Hf; lia. }
  split.
  - intros [f0 l0] [f1 l1] pa pb Hf Ha Hb.
    rewrite unify_fuel_GNode in Hf.
    inversion Ha as [? ? ? slots0 Hla Hargsa]; subst.
    inversion Hb as [? ? ? slots1 Hlb Hargsb]; subst.
    rewrite struct_eq_GNode.
    destruct (String.eqb f0 f1) eqn:Hname; cbn [andb].
    + destruct (Nat.eqb_spec (length l0) (length l1)) as [Hlen|Hlen]; cbn [andb].
      * destruct (IHT l0 l1 slots0 slots1) as (cs & Hcs & H); auto with lia.
        exists cs. split; [exact Hcs|]. intros A K R.
        rewrite Unify_S, (Deref_atom _ _ _ _ _ _ Hla), (Deref_atom _ _ _ _ _ _ Hlb).
        simpl. rewrite Hla, Hlb, String.eqb_sym, Hname, Hlen, Z.eqb_refl. simpl.
        rewrite <- Hlen. apply H.
      * exists []. split; [constructor|]. intros A K R.
        rewrite Unify_S, (Deref_atom _ _ _ _ _ _ Hla), (Deref_atom _ _ _ _ _ _ Hlb).
        simpl. rewrite Hla, Hlb, String.eqb_sym, Hname. simpl.
        destruct (Z.eqb_spec (Z.of_nat (length l1)) (Z.of_nat (length l0))); [lia|].
        reflexivity.
    + exists []. split; [constructor|]. intros A K R.
      rewrite Unify_S, (Deref_atom _ _ _ _ _ _ Hla), (Deref_atom _ _ _ _ _ _ Hlb).
      simpl. rewrite Hla, Hlb, String.eqb_sym, Hname. reflexivity.
  - intros gas gbs pas pbs Hf Hlen Has Hbs.
    destruct gas as [|ga gas], gbs as [|gb gbs]; try discriminate.
    { exists []. split; [constructor|]. intros A K R. reflexivity. }
    simpl in Hf, Hlen. injection Hlen as Hlen.
    destruct pas as [|pa pas]; [inversion Has|].
    destruct pbs as [|pb pbs]; [inversion Hbs|].
    cbn [length take] in Has, Hbs.
    apply Forall2_cons_1 in Has as [Ha Has].
    apply Forall2_cons_1 in Hbs as [Hb Hbs].
    destruct (IHU ga gb pa pb) as (cs1 & Hcs1 & H1); auto with lia.
    destruct (IHT gas gbs pas pbs) as (cs2 & Hcs2 & H2); auto with lia.
    exists (cs2 ++ [length (mTrail s)]). split.
    { apply Forall_app. split; [exact Hcs2 | repeat constructor]. }
    intros A K R. rewrite UnifyTerms_S.
    replace (Z.of_nat (length (ga :: gas)) =? 0)%Z with false
      by (symmetry; apply Z.eqb_neq; simpl; lia).
    replace (Z.of_nat (length (ga :: gas)) - 1)%Z with (Z.of_nat (length gas))
      by (simpl; lia).
    rewrite H1. cbn [struct_eq_list tail].
    destruct (struct_eq ga gb); simpl.
    + rewrite H2. destruct (struct_eq_list gas gbs).
      * rewrite unwinds_snoc. reflexivity.
      * unfold UnifyTerms_r. rewrite UnWind_noop. reflexivity.
    + unfold UnifyTerms_r. rewrite UnWind_noop. reflexivity.
Qed.

(** C4.  For ground terms [ga] at [pa] and [gb] at [pb], with enough
    fuel: if they are structurally equal, [Unify] calls [K], in the
    unchanged state and with a retry that unwinds to the current trail
    length only; otherwise it calls [R] in the unchanged state.  A caller
    that observes which of the two was called sees [K] exactly when the
    terms are structurally equal and [R] exactly when they are not; and
    structural equality is equality of the trees. *)
Theorem Unify_ground_iff_struct_eq (s : State) (pa pb : ptr) (ga gb : GTerm) :
  repr s pa ga -> repr s pb gb ->
  forall fuel, unify_fuel ga <= fuel ->
    (forall A (K : Continuation A) (R : Retry A),
        if struct_eq ga gb
        then exists cs, Forall (eq (length (mTrail s))) cs /\
                        Unify fuel pa pb K R s = K (unwinds cs R) s
        else Unify fuel pa pb K R s = R s) /\
    ((exists redo, Unify fuel pa pb yield no_more s = Done (Solution s redo))
       <-> struct_eq ga gb = true) /\
    (Unify fuel pa pb yield no_more s = Done (NoMore s)
       <-> struct_eq ga gb = false) /\
    (struct_eq ga gb = true <-> ga = gb).
Proof.
  intros Ha Hb fuel Hfuel.
  destruct (proj1 (Unify_ground s fuel) ga gb pa pb Hfuel Ha Hb) as (cs & Hcs & H).
  split; [|split; [|split]].
  - intros A K R. rewrite H. destruct (struct_eq ga gb); eauto.
  - rewrite H. unfold yield, no_more. destruct (struct_eq ga gb).
    + split; [reflexivity | eauto].
    + split; [intros [redo Hr]; discriminate | discriminate].
  - rewrite H. unfold yield, no_more. destruct (struct_eq ga gb).
    + split; discriminate.
    + split; reflexivity.
  - apply struct_eq_spec.
Qed.

Lemma example_ground_repr :
  repr example_ground 4 example_tree /\ repr example_ground 8 example_tree.
Proof.
  split; repeat first [eapply repr_node; [reflexivity | cbn] | constructor].
Qed.

Lemma Unify_ground_iff_struct_eq_witness :
  (forall A (K : Continuation A) (R : Retry A),
      if struct_eq example_tree example_tree
      then exists cs, Forall (eq (length (mTrail example_ground))) cs /\
                      Unify 7 4 8 K R example_ground = K (unwinds cs R) example_ground
      else Unify 7 4 8 K R example_ground = R example_ground) /\
  ((exists redo, Unify 7 4 8 yield no_more example_ground
                 = Done (Solution example_ground redo))
     <-> struct_eq example_tree example_tree = true) /\
  (Unify 7 4 8 yield no_more example_ground = Done (NoMore example_ground)
     <-> struct_eq example_tree example_tree = false) /\
  (struct_eq example_tree example_tree = true <-> example_tree = example_tree).
Proof.
  apply (Unify_ground_iff_struct_eq example_ground 4 8 example_tree example_tree
           (proj1 example_ground_repr) (proj2 example_ground_repr) 7).
  cbn. lia.
Defined.

(** * Further properties of the code *)

(** ** Deref *)

Lemma Deref_cell_sim (s s' : State) :
  (forall p, cell_sim (load s p) (load s' p)) ->
  forall fuel t, Deref fuel t s = Deref fuel t s'.
Proof.
  intros Hsim fuel. induction fuel as [|fuel IH]; intros t; simpl; [reflexivity|].
  destruct (Hsim t) as [<-|[[r ->] [r' ->]]]; [|reflexivity].
  destruct (load s t) as [[[|] ref|name arity slots]|]; try reflexivity. apply IH.
Qed.

Lemma Deref_heap (s s' : State) :
  heap s' = heap s -> forall fuel t, Deref fuel t s' = Deref fuel t s.
Proof.
  intros H. apply Deref_cell_sim. intros p. left. unfold load. rewrite H. reflexivity.
Qed.

(** X1.  What [Deref] returns is not a bound variable: dereferencing
    it again, with any fuel, returns it unchanged. *)
Theorem Deref_idempotent (fuel : nat) (t : ptr) (s : State) (r : ptr) :
  Deref fuel t s = Done r ->
  forall fuel', Deref (S fuel') r s = Done r.
Proof.
  intros H fuel'. simpl.
  destruct (Deref_result _ _ _ _ H) as [[ref ->]|(name & arity & slots & ->)];
    reflexivity.
Qed.

Lemma Deref_idempotent_witness : Deref 3 2 example_bound = Done 2.
Proof. apply (Deref_idempotent 2 1 example_bound 2 eq_refl 2). Defined.

(** X2.  States that differ only in the references kept by unbound
    variables cannot be told apart by [Deref]. *)
Theorem Deref_ignores_stale_references (s s' : State) :
  (forall p, cell_sim (load s p) (load s' p)) ->
  forall fuel t, Deref fuel t s = Deref fuel t s'.
Proof. apply Deref_cell_sim. Qed.

Lemma Deref_ignores_stale_references_witness :
  Deref 3 1 example_var_atom = Deref 3 1 (unwound 0 example_bound).
Proof.
  apply (Deref_ignores_stale_references example_var_atom (unwound 0 example_bound)).
  intros [|[|[|p]]]; try (left; reflexivity).
  right. split; eexists; reflexivity.
Defined.

(** ** The trail *)

Lemma UnWind_loop_above Index l :
  forall fuel s,
    mTrail s = l -> length l < Index -> UnWind_loop fuel Index s <> OutOfFuel ->
    UnWind_loop fuel Index s = Undefined.
Proof.
  induction l as [|x l IH] using rev_ind; intros fuel s Htr Hlt Hfuel.
  - assert (Hne : (length (mTrail s) =? Index) = false)
      by (apply Nat.eqb_neq; rewrite Htr; simpl in *; lia).
    destruct fuel; simpl; rewrite Hne, Htr; reflexivity.
  - assert (Hne : (length (mTrail s) =? Index) = false)
      by (apply Nat.eqb_neq; rewrite Htr; lia).
    rewrite length_app in Hlt. simpl in Hlt.
    destruct fuel as [|fuel]; simpl in *; rewrite Hne, Htr, last_snoc in *;
      [congruence|].
    destruct (clear_IsBound x s) as [s'| |] eqn:E; simpl in *; try congruence.
    apply IH; [|lia|exact Hfuel].
    unfold clear_IsBound in E. destruct (load s x) as [[b r|? ? ?]|]; try discriminate.
    injection E as <-. simpl. rewrite Htr. apply removelast_last.
Qed.

Lemma UnWind_loop_fuel Index :
  forall fuel s, length (mTrail s) <= fuel -> UnWind_loop fuel Index s <> OutOfFuel.
Proof.
  induction fuel as [|fuel IH]; intros s Hlen; simpl.
  - destruct (length (mTrail s) =? Index); [discriminate|].
    destruct (mTrail s) as [|x l]; [discriminate | simpl in Hlen; lia].
  - destruct (length (mTrail s) =? Index); [discriminate|].
    destruct (last (mTrail s)) as [x|] eqn:El; [|discriminate].
    unfold clear_IsBound.
    destruct (load s x) as [[b r|? ? ?]|]; simpl; try discriminate.
    apply IH. simpl.
    rewrite removelast_firstn_len, length_take.
    destruct (mTrail s) as [|y l]; [discriminate | simpl in *; lia].
Qed.

(** X3.  [UnWind] has no guard against a checkpoint above the length of
    the trail: the loop pops every entry and then calls [back()] on the
    empty vector.  Such a call never returns normally. *)
Theorem UnWind_above_trail (Index : nat) (s : State) :
  length (mTrail s) < Index -> UnWind Index s = Undefined.
Proof.
  intros Hlt. unfold UnWind.
  apply (UnWind_loop_above Index (mTrail s)); [reflexivity | exact Hlt|].
  apply UnWind_loop_fuel. lia.
Qed.

Lemma UnWind_above_trail_witness : UnWind 2 example_bound = Undefined.
Proof. apply (UnWind_above_trail 2 example_bound). simpl. lia. Defined.

(** X4.  Unwinding in two steps is unwinding in one: after [UnWind(C1)],
    [UnWind(C2)] to an older checkpoint [C2 <= C1] leaves the state that
    [UnWind(C2)] alone leaves.  In particular unwinding to the current
    length of the trail changes nothing. *)
Theorem UnWind_twice (C1 C2 : nat) (s : State) :
  C2 <= C1 <= length (mTrail s) ->
  (forall p, p ∈ drop C2 (mTrail s) -> is_var (load s p)) ->
  (s1 ← UnWind C1 s; UnWind C2 s1) = UnWind C2 s /\
  UnWind C2 s = Done (unwound C2 s) /\
  UnWind (length (mTrail s)) s = Done s.
Proof.
  intros [H21 H1] Hvar.
  assert (HU2 : UnWind C2 s = Done (unwound C2 s)) by (apply UnWind_spec; [lia | exact Hvar]).
  assert (HU1 : UnWind C1 s = Done (unwound C1 s)).
  { apply UnWind_spec; [lia|]. intros p Hp. apply Hvar.
    rewrite <- (take_drop (C1 - C2) (drop C2 (mTrail s))), drop_drop.
    apply elem_of_app. right. replace (C2 + (C1 - C2)) with C1 by lia. exact Hp. }
  split; [|split; [exact HU2 | apply UnWind_noop]].
  rewrite HU1, HU2. simpl. rewrite <- (unwound_unwound C1 C2 s H21).
  apply UnWind_spec.
  - simpl. rewrite length_take. lia.
  - intros p Hp. rewrite load_unwound. simpl in Hp.
    assert (Hin : p ∈ drop C2 (mTrail s)).
    { rewrite <- (take_drop C1 (mTrail s)), drop_app. apply elem_of_app. left. exact Hp. }
    destruct (Hvar p Hin) as (b & r & ->). red; eauto.
Qed.

Lemma UnWind_twice_witness :
  (s1 ← UnWind 1 example_bound; UnWind 0 s1) = UnWind 0 example_bound /\
  UnWind 0 example_bound = Done (unwound 0 example_bound) /\
  UnWind (length (mTrail example_bound)) example_bound = Done example_bound.
Proof.
  apply (UnWind_twice 1 0 example_bound).
  - simpl. lia.
  - intros p Hp. apply list_elem_of_singleton in Hp as ->.
    exists true, 2. reflexivity.
Defined.

(** X5.  [Bind] followed by [UnWind] to the checkpoint taken before it
    gives back the state before, except that the variable keeps the
    reference it was bound to: the trail, the output and every other
    cell are as they were. *)
Theorem Bind_UnWind (v t : ptr) (s : State) :
  is_var (load s v) ->
  Bind v t s = Done (Trail_Add v (store v (TVariable true t) s)) /\
  UnWind (length (mTrail s)) (Trail_Add v (store v (TVariable true t) s)) =
    Done (store v (TVariable false t) s).
Proof.
  intros (b & r & Hv). unfold Bind. rewrite Hv. split; [reflexivity|].
  rewrite UnWind_spec.
  - f_equal. unfold unwound, store. simpl.
    rewrite drop_app_length, take_app_length. simpl. f_equal.
    unfold release. rewrite cell_at_set_cell_eq by (unfold load in Hv; rewrite Hv; eauto).
    destruct v as [|i]; [discriminate|]. simpl. apply list_insert_insert_eq.
  - simpl. rewrite length_app. lia.
  - simpl. rewrite drop_app_length. intros p Hp.
    apply list_elem_of_singleton in Hp as ->.
    exists true, t. apply load_store_eq. rewrite Hv. eauto.
Qed.

Lemma Bind_UnWind_witness :
  Bind 1 2 example_var_atom =
    Done (Trail_Add 1 (store 1 (TVariable true 2) example_var_atom)) /\
  UnWind (length (mTrail example_var_atom))
         (Trail_Add 1 (store 1 (TVariable true 2) example_var_atom)) =
    Done (store 1 (TVariable false 2) example_var_atom).
Proof.
  apply (Bind_UnWind 1 2 example_var_atom). exists false, 0. reflexivity.
Defined.

(** ** Unify *)

(** X6.  Whatever [K] and [R] are, [Unify] allocates nothing and prints
    nothing.  When it succeeds it calls [K] in a state whose trail is the
    old trail followed by variables that were unbound, and in which every
    atom and every bound variable is as before.  When it fails it calls
    [R] with the old trail and with every cell as before, up to the
    references kept by unbound variables. *)
Theorem Unify_frame (fuel : nat) (t0 t1 : ptr) (s : State) :
  exists o,
    (forall A (K : Continuation A) (R : Retry A),
        Unify fuel t0 t1 K R s = deliver o K R) /\
    match o with
    | Succeeds cs s' =>
        out s' = out s /\ length (heap s') = length (heap s) /\
        exists l,
          mTrail s' = mTrail s ++ l /\
          (forall p, p ∈ l -> is_unbound (load s p)) /\
          (forall p c, load s p = Some c -> ~ is_unbound (Some c) ->
                       load s' p = Some c)
    | Fails s' =>
        out s' = out s /\ length (heap s') = length (heap s) /\
        mTrail s' = mTrail s /\
        forall p, cell_sim (load s p) (load s' p)
    | GoesWrong | Exhausts => True
    end.
Proof.
  destruct (proj1 (Unify_outcomes fuel) t0 t1 s) as (o & Hok & Ho).
  exists o. split; [exact Ho|].
  destruct o as [cs s'|s'| |]; try exact I.
  - destruct Hok as [[l [T O L N D]] _]. split; [exact O|]. split; [exact L|].
    exists l. split; [exact T|]. split; [intros p Hp; apply N, Hp|].
    intros p c Hc Hnu. destruct (decide (p ∈ l)) as [Hl|Hl].
    + exfalso. apply Hnu. rewrite <- Hc. apply N, Hl.
    + destruct (D p Hl) as [<-|[Hu _]]; [exact Hc|].
      exfalso. apply Hnu. rewrite <- Hc. exact Hu.
  - destruct Hok as [T O L N D]. split; [exact O|]. split; [exact L|].
    split; [rewrite T; apply app_nil_r|].
    intros p. apply D. intros Hp. inversion Hp.
Qed.

(** X7.  On a variable-free term [Unify(t, t)] succeeds without a
    binding: [K] is called in the unchanged state; and on two
    variable-free terms the order of the arguments does not matter for
    whether [K] or [R] is called. *)
Theorem Unify_ground_reflexive_symmetric (s : State) (pa pb : ptr) (ga gb : GTerm) :
  repr s pa ga -> repr s pb gb ->
  forall fuel, unify_fuel ga <= fuel -> unify_fuel gb <= fuel ->
    (forall A (K : Continuation A) (R : Retry A),
        exists cs, Forall (eq (length (mTrail s))) cs /\
                   Unify fuel pa pa K R s = K (unwinds cs R) s) /\
    (Unify fuel pa pb yield no_more s = Done (NoMore s) <->
     Unify fuel pb pa yield no_more s = Done (NoMore s)).
Proof.
  intros Ha Hb fuel Hfa Hfb. split.
  - intros A K R.
    destruct (proj1 (Unify_ground s fuel) ga ga pa pa Hfa Ha Ha) as (cs & Hcs & H).
    exists cs. split; [exact Hcs|]. rewrite H.
    rewrite (proj2 (struct_eq_spec ga ga) eq_refl). reflexivity.
  - destruct (proj1 (Unify_ground s fuel) ga gb pa pb Hfa Ha Hb) as (cs & _ & H).
    destruct (proj1 (Unify_ground s fuel) gb ga pb pa Hfb Hb Ha) as (cs' & _ & H').
    rewrite H, H'. unfold yield, no_more.
    destruct (struct_eq ga gb) eqn:E, (struct_eq gb ga) eqn:E'; try tauto;
      try (split; discriminate).
    + apply struct_eq_spec in E as ->.
      rewrite (proj2 (struct_eq_spec gb gb) eq_refl) in E'. discriminate.
    + apply struct_eq_spec in E' as ->.
      rewrite (proj2 (struct_eq_spec ga ga) eq_refl) in E. discriminate.
Qed.

Lemma Unify_ground_reflexive_symmetric_witness :
  (forall A (K : Continuation A) (R : Retry A),
      exists cs, Forall (eq (length (mTrail example_ground))) cs /\
                 Unify 7 4 4 K R example_ground = K (unwinds cs R) example_ground) /\
  (Unify 7 4 8 yield no_more example_ground = Done (NoMore example_ground) <->
   Unify 7 8 4 yield no_more example_ground = Done (NoMore example_ground)).
Proof.
  apply (Unify_ground_reflexive_symmetric example_ground 4 8 example_tree example_tree
           (proj1 example_ground_repr) (proj2 example_ground_repr) 7); cbn; lia.
Defined.

(** After [v] was bound to [r], a chain that used to end in [v] ends in
    [r], and every other chain ends where it did. *)
Lemma Deref_after_Bind v r s n :
  is_unbound (load s v) -> r <> v ->
  (is_unbound (load s r) \/
   exists name arity slots, load s r = Some (TAtom name arity slots)) ->
  forall t x,
    Deref n t s = Done x ->
    Deref (S n) t (Trail_Add v (store v (TVariable true r) s)) =
      Done (if decide (x = v) then r else x).
Proof.
  intros Hv Hne Hr.
  set (s' := Trail_Add v (store v (TVariable true r) s)).
  assert (Hs'v : load s' v = Some (TVariable true r)).
  { apply load_store_eq. destruct Hv as [? ->]. eauto. }
  assert (Hs' : forall p, p <> v -> load s' p = load s p).
  { intros p Hp. apply load_store_ne. congruence. }
  assert (Hr' : Deref (S n) r s' = Done r).
  { simpl. rewrite (Hs' r Hne).
    destruct Hr as [[? ->]|(? & ? & ? & ->)]; reflexivity. }
  induction n as [|n IH]; intros t x H; [discriminate|].
  simpl in H.
  destruct (decide (t = v)) as [->|Htv].
  - destruct Hv as [ref Hv]. rewrite Hv in H. injection H as <-.
    destruct (decide (v = v)); [|contradiction].
    change (Deref (S (S n)) v s') with
      (match load s' v with
       | None => Undefined
       | Some (TVariable true mReference) => Deref (S n) mReference s'
       | Some _ => Done v
       end).
    rewrite Hs'v. simpl. rewrite (Hs' r Hne).
    destruct Hr as [[? ->]|(? & ? & ? & ->)]; reflexivity.
  - change (Deref (S (S n)) t s') with
      (match load s' t with
       | None => Undefined
       | Some (TVariable true mReference) => Deref (S n) mReference s'
       | Some _ => Done t
       end).
    rewrite (Hs' t Htv).
    destruct (load s t) as [[[|] ref|name arity slots]|]; try discriminate.
    + apply IH; [|exact H].
      simpl. rewrite (Hs' r Hne).
      destruct Hr as [[? ->]|(? & ? & ? & ->)]; reflexivity.
    + injection H as <-. destruct (decide (t = v)); [contradiction | reflexivity].
    + injection H as <-. destruct (decide (t = v)); [contradiction | reflexivity].
Qed.

(** X8.  A successful binding makes the two terms aliases: when one of
    the two dereferenced terms is an unbound variable (and they are not
    the same cell), then in the state in which [K] is called both
    arguments of [Unify] dereference to one and the same term. *)
Theorem Unify_binds_alias :
  forall A fuel t0 t1 (K : Continuation A) (R : Retry A) s d0 d1,
    Deref (S fuel) t0 s = Done d0 ->
    Deref (S fuel) t1 s = Done d1 ->
    d0 <> d1 ->
    (is_unbound (load s d0) ->
     let s' := Trail_Add d0 (store d0 (TVariable true d1) s) in
     Unify (S fuel) t0 t1 K R s = K R s' /\
     Deref (S (S fuel)) t0 s' = Done d1 /\
     Deref (S (S fuel)) t1 s' = Done d1) /\
    (forall name arity slots,
        load s d0 = Some (TAtom name arity slots) ->
        is_unbound (load s d1) ->
        let s' := Trail_Add d1 (store d1 (TVariable true d0) s) in
        Unify (S fuel) t0 t1 K R s = K R s' /\
        Deref (S (S fuel)) t0 s' = Done d0 /\
        Deref (S (S fuel)) t1 s' = Done d0).
Proof.
  intros A fuel t0 t1 K R s d0 d1 E0 E1 Hne.
  destruct (Unify_cases A fuel t0 t1 K R s d0 d1 E0 E1) as [Hvar Hatom].
  split.
  - intros Hu s'. subst s'. split; [apply Hvar, Hu|].
    pose proof (Deref_after_Bind d0 d1 s (S fuel) Hu ltac:(congruence)
                  (Deref_result _ _ _ _ E1)) as H.
    split.
    + rewrite (H t0 d0 E0). destruct (decide (d0 = d0)); [reflexivity|contradiction].
    + rewrite (H t1 d1 E1). destruct (decide (d1 = d0)); [congruence|reflexivity].
  - intros name arity slots Ha Hu s'. subst s'.
    split; [apply (proj1 (Hatom name arity slots Ha)), Hu|].
    pose proof (Deref_after_Bind d1 d0 s (S fuel) Hu Hne
                  (Deref_result _ _ _ _ E0)) as H.
    split.
    + rewrite (H t0 d0 E0). destruct (decide (d0 = d1)); [congruence|reflexivity].
    + rewrite (H t1 d1 E1). destruct (decide (d1 = d1)); [reflexivity|contradiction].
Qed.

Lemma Unify_binds_alias_witness :
  (let s' := Trail_Add 1 (store 1 (TVariable true 2) example_two_vars) in
   Unify 1 1 2 yield no_more example_two_vars = yield no_more s' /\
   Deref 2 1 s' = Done 2 /\ Deref 2 2 s' = Done 2) /\
  (let s' := Trail_Add 2 (store 2 (TVariable true 3) example_two_vars) in
   Unify 1 3 2 yield no_more example_two_vars = yield no_more s' /\
   Deref 2 3 s' = Done 3 /\ Deref 2 2 s' = Done 3).
Proof.
  split.
  - refine (proj1 (Unify_binds_alias Answer 0 1 2 yield no_more
                     example_two_vars 1 2 eq_refl eq_refl _) _).
    + discriminate.
    + exists 0. reflexivity.
  - refine (proj2 (Unify_binds_alias Answer 0 3 2 yield no_more
                     example_two_vars 3 2 eq_refl eq_refl _)
                  "a" 0%Z empty_mTerms eq_refl _).
    + discriminate.
    + exists 0. reflexivity.
Defined.

(** ** Print *)

Lemma string_app_assoc (a b c : string) :
  String.append (String.append a b) c = String.append a (String.append b c).
Proof.
  induction a as [|x a IH]; [reflexivity|].
  change (String x (String.append (String.append a b) c) =
          String x (String.append a (String.append b c))).
  rewrite IH. reflexivity.
Qed.

Lemma string_app_nil_r (a : string) : String.append a "" = a.
Proof.
  induction a as [|x a IH]; [reflexivity|].
  change (String x (String.append a "") = String x a).
  rewrite IH. reflexivity.
Qed.

Lemma printf_printf a b s : printf b (printf a s) = printf (String.append a b) s.
Proof. unfold printf. cbn [heap mTrail out]. rewrite string_app_assoc. reflexivity. Qed.

Lemma printf_nil s : printf "" s = s.
Proof. destruct s. unfold printf. cbn [heap mTrail out]. rewrite string_app_nil_r. reflexivity. Qed.

Lemma render_GNode f args :
  render (GNode f args) =
  String.append f (String.append "(" (String.append (render_list args) ")")).
Proof. reflexivity. Qed.

Lemma Print_S fuel Root s :
  Print (S fuel) Root s =
  t ← Deref (S fuel) Root s;
  match load s t with
  | None => Undefined
  | Some (TAtom mName mArity mTerms) =>
      s ← Print_loop fuel mTerms mArity 0%Z (printf (String.append mName "(") s);
      Done (printf ")" s)
  | Some (TVariable _ _) => Done (printf "X?" s)
  end.
Proof. reflexivity. Qed.

Lemma Print_loop_S fuel mTerms mArity i s :
  Print_loop (S fuel) mTerms mArity i s =
  if (i <? mArity)%Z then
    match (if (0 <=? i)%Z then mTerms !! Z.to_nat i else None) with
    | None => Undefined
    | Some t => s ← Print fuel t s; Print_loop fuel mTerms mArity (i + 1)%Z s
    end
  else Done s.
Proof. reflexivity. Qed.

(** [Print] on the copy of a ground term, in any state with the heap of
    [s0], and its loop from argument [i] on. *)
Lemma Print_ground s0 fuel :
  (forall g p s,
      heap s = heap s0 -> unify_fuel g <= fuel -> repr s0 p g ->
      Print fuel p s = Done (printf (render g) s)) /\
  (forall gs slots i s,
      heap s = heap s0 -> terms_fuel gs <= fuel ->
      Forall2 (repr s0) (take (length gs) (drop i slots)) gs ->
      Print_loop fuel slots (Z.of_nat (i + length gs)) (Z.of_nat i) s =
        Done (printf (render_list gs) s)).
Proof.
  induction fuel as [|fuel [IHP IHL]].
  { split.
    - intros [f l] p s _ Hf. rewrite unify_fuel_GNode in Hf. lia.
    - intros [|a l] slots i s _ Hf; simpl in Hf; lia. }
  split.
  - intros [f args] p s Hh Hf Hr. rewrite unify_fuel_GNode in Hf.
    inversion Hr as [? ? ? slots Hl Hargs]; subst.
    assert (Hl' : load s p = Some (TAtom f (Z.of_nat (length args)) slots))
      by (unfold load in *; rewrite Hh; exact Hl).
    rewrite render_GNode, Print_S, (Deref_atom _ _ _ _ _ _ Hl').
    cbn [mbind Result_mbind Result_bind]. rewrite Hl'.
    pose proof (IHL args slots 0 (printf (String.append f "(") s) Hh
                  ltac:(lia) Hargs) as HL.
    change (Z.of_nat (0 + length args)) with (Z.of_nat (length args)) in HL.
    change (Z.of_nat 0) with 0%Z in HL.
    rewrite HL. cbn [mbind Result_mbind Result_bind].
    rewrite !printf_printf, !string_app_assoc. reflexivity.
  - intros gs slots i s Hh Hf Hargs. rewrite Print_loop_S.
    destruct gs as [|g gs].
    + simpl. replace (i + 0) with i by lia. rewrite Z.ltb_irrefl, printf_nil.
      reflexivity.
    + simpl in Hf. cbn [length] in *.
      replace (Z.of_nat i <? Z.of_nat (i + S (length gs)))%Z with true
        by (symmetry; apply Z.ltb_lt; lia).
      replace (0 <=? Z.of_nat i)%Z with true by (symmetry; apply Z.leb_le; lia).
      rewrite Nat2Z.id.
      destruct (drop i slots) as [|p rest] eqn:Ed; [inversion Hargs|].
      cbn [take] in Hargs. apply Forall2_cons_1 in Hargs as [Hg Hgs].
      assert (Hp : slots !! i = Some p).
      { rewrite <- (Nat.add_0_r i), <- lookup_drop, Ed. reflexivity. }
      assert (Hrest : drop (S i) slots = rest).
      { replace (S i) with (i + 1) by lia. rewrite <- drop_drop, Ed. reflexivity. }
      rewrite Hp, (IHP g p s Hh ltac:(lia) Hg). simpl.
      replace (Z.of_nat i + 1)%Z with (Z.of_nat (S i)) by lia.
      replace (i + S (length gs)) with (S i + length gs) by lia.
      rewrite (IHL gs slots (S i)); [| exact Hh | lia | rewrite Hrest; exact Hgs].
      rewrite printf_printf. reflexivity.
Qed.

(** X9.  [Print] on a variable-free term, with enough fuel, writes the
    functor, "(", the arguments one after the other without a separator,
    and ")", and changes nothing else. *)
Theorem Print_ground_term (s : State) (p : ptr) (g : GTerm) (fuel : nat) :
  repr s p g -> unify_fuel g <= fuel ->
  Print fuel p s = Done (printf (render g) s).
Proof.
  intros Hr Hf. apply (proj1 (Print_ground s fuel) g p s eq_refl Hf Hr).
Qed.

Lemma Print_ground_term_witness :
  Print 7 4 example_ground = Done (printf "p(a()q(b()))" example_ground).
Proof.
  apply (Print_ground_term example_ground 4 example_tree 7
           (proj1 example_ground_repr)).
  cbn. lia.
Defined.

(** X10.  [Print] dereferences first: it writes for [Root] what it
    writes for the term [Root] dereferences to, and "X?" when that is an
    unbound variable. *)
Theorem Print_dereferences (fuel : nat) (Root t : ptr) (s : State) :
  Deref (S fuel) Root s = Done t ->
  Print (S fuel) Root s = Print (S fuel) t s /\
  (is_unbound (load s t) -> Print (S fuel) Root s = Done (printf "X?" s)).
Proof.
  intros H. rewrite !Print_S, H.
  assert (Ht : Deref (S fuel) t s = Done t).
  { simpl. destruct (Deref_result _ _ _ _ H) as [[ref ->]|(? & ? & ? & ->)];
      reflexivity. }
  rewrite Ht. split; [reflexivity|].
  cbn [mbind Result_mbind Result_bind]. intros [ref ->]. reflexivity.
Qed.

Lemma Print_dereferences_witness :
  Print 2 1 example_bound = Print 2 2 example_bound.
Proof. apply (Print_dereferences 1 1 2 example_bound). reflexivity. Defined.

(** [Print] on a variable bound to an atom whose first argument is the
    variable itself. *)
Lemma Print_cyclic X t name arity rest :
  (0 < arity)%Z ->
  forall fuel s,
    load s X = Some (TVariable true t) ->
    load s t = Some (TAtom name arity (X :: rest)) ->
    Print fuel X s = OutOfFuel /\ Print fuel t s = OutOfFuel.
Proof.
  intros Harity fuel. induction fuel as [fuel IH] using lt_wf_ind. intros s HX Ht.
  assert (Hloop : forall s', load s' X = Some (TVariable true t) ->
            load s' t = Some (TAtom name arity (X :: rest)) ->
            Print_loop (pred fuel) (X :: rest) arity 0%Z s' ≫=
              (fun s => Done (printf ")" s)) = OutOfFuel).
  { intros s' HX' Ht'. destruct fuel as [|[|fuel]]; try reflexivity.
    cbn [pred]. rewrite Print_loop_S.
    replace (0 <? arity)%Z with true by (symmetry; apply Z.ltb_lt; lia).
    simpl. rewrite (proj1 (IH fuel ltac:(lia) s' HX' Ht')). reflexivity. }
  destruct fuel as [|fuel]; [split; reflexivity|]. cbn [pred] in Hloop.
  split.
  - rewrite Print_S. simpl. rewrite HX.
    destruct fuel as [|fuel]; [reflexivity|]. simpl. rewrite Ht. simpl. rewrite Ht.
    apply Hloop; assumption.
  - rewrite Print_S. simpl. rewrite Ht. simpl. rewrite Ht.
    apply Hloop; assumption.
Qed.

(** X11.  [Unify] makes no occurs check: an unbound variable [X] is
    bound to an atom that has [X] among its arguments, and [K] is
    called; in that state [Print(X)] does not terminate. *)
Theorem Unify_no_occurs_check :
  forall A fuel (K : Continuation A) (R : Retry A) s X t name arity rest,
    is_unbound (load s X) ->
    load s t = Some (TAtom name arity (X :: rest)) ->
    (0 < arity)%Z ->
    let s' := Trail_Add X (store X (TVariable true t) s) in
    Unify (S fuel) X t K R s = K R s' /\
    forall fuel', Print fuel' X s' = OutOfFuel.
Proof.
  intros A fuel K R s X t name arity rest Hu Ht Harity s'. subst s'.
  assert (E0 : Deref (S fuel) X s = Done X)
    by (simpl; destruct Hu as [r ->]; reflexivity).
  assert (E1 : Deref (S fuel) t s = Done t) by (eapply Deref_atom; eauto).
  split; [apply (proj1 (Unify_cases A fuel X t K R s X t E0 E1)), Hu|].
  intros fuel'. eapply (Print_cyclic X t name arity rest Harity fuel').
  - apply load_store_eq. destruct Hu as [r ->]. eauto.
  - rewrite <- Ht. apply load_store_ne. intros ->.
    destruct Hu as [r Hr]. congruence.
Qed.

Lemma Unify_no_occurs_check_witness :
  Unify 1 1 2 yield no_more (snd example_fX) =
    yield no_more (Trail_Add 1 (store 1 (TVariable true 2) (snd example_fX))) /\
  forall fuel',
    Print fuel' 1 (Trail_Add 1 (store 1 (TVariable true 2) (snd example_fX))) = OutOfFuel.
Proof.
  refine (Unify_no_occurs_check Answer 0 yield no_more (snd example_fX)
            1 2 "f" 1%Z (replicate 9 nullptr) _ eq_refl _).
  - exists 0. reflexivity.
  - reflexivity.
Defined.

(** X12.  [Print] only writes: when it returns, the heap and the trail
    are as before and the output is the old output followed by some
    text. *)
Theorem Print_only_writes (fuel : nat) :
  (forall Root s s',
      Print fuel Root s = Done s' ->
      heap s' = heap s /\ mTrail s' = mTrail s /\
      exists text, out s' = String.append (out s) text) /\
  (forall mTerms mArity i s s',
      Print_loop fuel mTerms mArity i s = Done s' ->
      heap s' = heap s /\ mTrail s' = mTrail s /\
      exists text, out s' = String.append (out s) text).
Proof.
  induction fuel as [|fuel [IHP IHL]]; [split; intros; discriminate|].
  split.
  - intros Root s s'. rewrite Print_S.
    destruct (Deref (S fuel) Root s) as [t| |]; simpl; try discriminate.
    destruct (load s t) as [[b r|name arity slots]|]; try discriminate.
    + intros [= <-]. repeat split. eexists. reflexivity.
    + destruct (Print_loop fuel slots arity 0%Z _) as [s1| |] eqn:E;
        simpl; try discriminate.
      intros [= <-]. destruct (IHL _ _ _ _ _ E) as (Hh & Ht & text & Ho).
      simpl in *. repeat split; try assumption.
      eexists. rewrite Ho, !string_app_assoc. reflexivity.
  - intros slots arity i s s'. rewrite Print_loop_S.
    destruct (i <? arity)%Z.
    + destruct (if (0 <=? i)%Z then slots !! Z.to_nat i else None) as [t|];
        [|discriminate].
      destruct (Print fuel t s) as [s1| |] eqn:E; simpl; try discriminate.
      intros E'. destruct (IHP _ _ _ E) as (Hh & Ht & text & Ho).
      destruct (IHL _ _ _ _ _ E') as (Hh' & Ht' & text' & Ho').
      repeat split; try congruence.
      eexists. rewrite Ho', Ho, string_app_assoc. reflexivity.
    + intros [= <-]. repeat split. exists "". symmetry. apply string_app_nil_r.
Qed.

Lemma Print_only_writes_witness :
  heap (printf "p(a()q(b()))" example_ground) = heap example_ground /\
  mTrail (printf "p(a()q(b()))" example_ground) = mTrail example_ground /\
  exists text, out (printf "p(a()q(b()))" example_ground) =
               String.append (out example_ground) text.
Proof.
  apply (proj1 (Print_only_writes 7) 4 example_ground). reflexivity.
Defined.

(** ** Invariants of the state *)

Lemma UnWind_Done_le c s s' : UnWind c s = Done s' -> c <= length (mTrail s).
Proof.
  intros H. destruct (decide (c <= length (mTrail s))) as [Hle|Hgt]; [exact Hle|].
  exfalso. unfold UnWind in H.
  rewrite (UnWind_loop_above c (mTrail s)) in H; [discriminate | reflexivity | lia |].
  apply UnWind_loop_fuel. lia.
Qed.

Lemma trail_exact_Bind s v t :
  trail_exact s -> is_unbound (load s v) ->
  trail_exact (Trail_Add v (store v (TVariable true t) s)).
Proof.
  intros [Hnd Hiff] [r Hv].
  assert (Hnin : v ∉ mTrail s).
  { intros Hin. apply Hiff in Hin as [r' Hr']. congruence. }
  split.
  - simpl. apply NoDup_app. split; [exact Hnd|]. split; [|apply NoDup_singleton].
    intros x Hx Hx'. apply list_elem_of_singleton in Hx' as ->. contradiction.
  - intros p. simpl. rewrite elem_of_app, list_elem_of_singleton.
    change (load (Trail_Add v (store v (TVariable true t) s)) p)
      with (load (store v (TVariable true t) s) p).
    destruct (decide (p = v)) as [->|Hne].
    + rewrite load_store_eq by (rewrite Hv; eauto). split; eauto.
    + rewrite load_store_ne by congruence. rewrite <- Hiff. tauto.
Qed.

Lemma trail_exact_UnWind s c s' :
  trail_exact s -> UnWind c s = Done s' -> trail_exact s'.
Proof.
  intros [Hnd Hiff] HU.
  pose proof (UnWind_Done_le _ _ _ HU) as Hle.
  rewrite UnWind_spec in HU; [|exact Hle|].
  2:{ intros p Hp. apply subseteq_drop, Hiff in Hp as [r ->]. red; eauto. }
  injection HU as <-.
  rewrite <- (take_drop c (mTrail s)) in Hnd.
  apply NoDup_app in Hnd as (Hnd1 & Hdisj & Hnd2).
  split; [exact Hnd1|].
  intros p. rewrite load_unwound.
  change (mTrail (unwound c s)) with (take c (mTrail s)). split.
  - intros Hp. pose proof (Hdisj p Hp) as Hnin.
    apply subseteq_take, Hiff in Hp as [r ->].
    destruct (decide (p ∈ drop c (mTrail s))); [contradiction|]. eauto.
  - intros [r Hr].
    destruct (load s p) as [[b r'|? ? ?]|] eqn:E; try discriminate.
    destruct (decide (p ∈ drop c (mTrail s))) as [Hd|Hd]; [discriminate|].
    injection Hr as -> ->.
    assert (Hin : p ∈ mTrail s) by (apply Hiff; eauto).
    rewrite <- (take_drop c (mTrail s)) in Hin. apply elem_of_app in Hin. tauto.
Qed.

Lemma trail_exact_new_Term s c :
  trail_exact s -> (forall r, c <> TVariable true r) ->
  trail_exact (snd (new_Term c s)).
Proof.
  intros [Hnd Hiff] Hc. split; [exact Hnd|].
  intros p. change (mTrail (snd (new_Term c s))) with (mTrail s).
  destruct (decide (p = fst (new_Term c s))) as [->|Hne].
  - rewrite (proj1 (load_new_Term c s)). split.
    + intros Hin. apply Hiff in Hin as [r Hr]. exfalso.
      assert (Hs : is_Some (load s (S (length (heap s))))).
      { change (S (length (heap s))) with (fst (new_Term c s)). rewrite Hr. eauto. }
      apply load_is_Some in Hs. lia.
    + intros [r [= ->]]. exfalso. eapply Hc. reflexivity.
  - rewrite (proj2 (load_new_Term c s) p Hne). apply Hiff.
Qed.

Section Respect.
Context {A : Type} (I : State -> Prop) (P : Result A -> Prop).
Hypothesis I_Bind : forall s v t,
  I s -> is_unbound (load s v) -> I (Trail_Add v (store v (TVariable true t) s)).
Hypothesis I_UnWind : forall s c s', I s -> UnWind c s = Done s' -> I s'.
Hypothesis I_new : forall s c,
  I s -> (forall r, c <> TVariable true r) -> I (snd (new_Term c s)).
Hypothesis P_Undefined : P Undefined.
Hypothesis P_OutOfFuel : P OutOfFuel.

Lemma UnifyTerms_r_respects (R : Retry A) index :
  Retry_respects I P R -> Retry_respects I P (UnifyTerms_r R index).
Proof.
  intros HR s Hs. unfold UnifyTerms_r.
  destruct (UnWind index s) as [s'| |] eqn:E; simpl; [|assumption..].
  apply HR. eapply I_UnWind; eauto.
Qed.

Lemma Unify_respects fuel :
  (forall t0 t1 (K : Continuation A) (R : Retry A) s,
      Continuation_respects I P K -> Retry_respects I P R -> I s ->
      P (Unify fuel t0 t1 K R s)) /\
  (forall t0s t1s (K : Continuation A) (R : Retry A) Arity s,
      Continuation_respects I P K -> Retry_respects I P R -> I s ->
      P (UnifyTerms fuel t0s t1s K R Arity s)).
Proof.
  induction fuel as [|fuel [IHU IHT]]; [split; intros; exact P_OutOfFuel|].
  split.
  - intros t0 t1 K R s HK HR Hs. rewrite Unify_S.
    destruct (Deref (S fuel) t0 s) as [d0| |] eqn:E0; [|assumption..].
    destruct (Deref (S fuel) t1 s) as [d1| |] eqn:E1; [|assumption..].
    cbn [mbind Result_mbind Result_bind].
    destruct (Deref_result _ _ _ _ E0) as [Hu0|(n0 & a0 & ts0 & Ha0)].
    { destruct (Bind_extends d0 d1 s Hu0) as [HB _].
      pose proof (I_Bind s d0 d1 Hs Hu0) as Hs'.
      destruct Hu0 as [r0 Hr0]. rewrite Hr0, HB. apply HK; assumption. }
    rewrite Ha0.
    destruct (Deref_result _ _ _ _ E1) as [Hu1|(n1 & a1 & ts1 & Ha1)].
    { destruct (Bind_extends d1 d0 s Hu1) as [HB _].
      pose proof (I_Bind s d1 d0 Hs Hu1) as Hs'.
      destruct Hu1 as [r1 Hr1]. rewrite Hr1, HB. apply HK; assumption. }
    rewrite Ha1.
    destruct (String.eqb n1 n0 && (a1 =? a0)%Z); [apply IHT | apply HR]; assumption.
  - intros t0s t1s K R Arity s HK HR Hs. rewrite UnifyTerms_S.
    destruct (Arity =? 0)%Z; [apply HK; assumption|].
    destruct t0s as [|t0 t0s]; [assumption|].
    destruct t1s as [|t1 t1s]; [assumption|].
    apply IHU; [| apply UnifyTerms_r_respects, HR | exact Hs].
    intros R1 _ s1 Hs1. apply IHT; [exact HK | apply UnifyTerms_r_respects, HR | exact Hs1].
Qed.

Lemma Member_respects fuel :
  (forall Item List (K : Continuation A) (R : Retry A) s,
      Continuation_respects I P K -> Retry_respects I P R -> I s ->
      P (Member0 fuel Item List K R s)) /\
  (forall Item List (K : Continuation A) (R : Retry A) s,
      Continuation_respects I P K -> Retry_respects I P R -> I s ->
      P (Member1 fuel Item List K R s)).
Proof.
  induction fuel as [|fuel [IH0 IH1]]; [split; intros; exact P_OutOfFuel|].
  split; intros Item List K R s HK HR Hs; cbn [Member0 Member1 mkVar mkAtom2].
  - set (s1 := snd (new_Term (TVariable false nullptr) s)).
    set (v := fst (new_Term (TVariable false nullptr) s)).
    set (c := TAtom "." 2 (<[1:=v]> (<[0:=Item]> empty_mTerms))).
    assert (Hs1 : I s1) by (apply I_new; [exact Hs | discriminate]).
    assert (Hs2 : I (snd (new_Term c s1))) by (apply I_new; [exact Hs1 | discriminate]).
    apply (proj1 (Unify_respects fuel)); [| |exact Hs2].
    + intros R1 HR1 s' Hs'. apply HK; assumption.
    + intros s' Hs'. destruct (UnWind _ s') as [s''| |] eqn:E; simpl; [|assumption..].
      apply IH1; [exact HK | exact HR |]. eapply I_UnWind; eauto.
  - set (s1 := snd (new_Term (TVariable false nullptr) s)).
    set (H := fst (new_Term (TVariable false nullptr) s)).
    set (s2 := snd (new_Term (TVariable false nullptr) s1)).
    set (T := fst (new_Term (TVariable false nullptr) s1)).
    set (c := TAtom "." 2 (<[1:=T]> (<[0:=H]> empty_mTerms))).
    assert (Hs1 : I s1) by (apply I_new; [exact Hs | discriminate]).
    assert (Hs2 : I s2) by (apply I_new; [exact Hs1 | discriminate]).
    assert (Hs3 : I (snd (new_Term c s2))) by (apply I_new; [exact Hs2 | discriminate]).
    apply (proj1 (Unify_respects fuel)); [| |exact Hs3].
    + intros R1 HR1 s' Hs'. apply IH0; assumption.
    + apply UnifyTerms_r_respects, HR.
Qed.
End Respect.

(** X13.  The trail lists exactly the bound variables, each once, and
    [Unify], [Member0] and [Member1] keep it so: started in such a
    state, they call [K] and [R] in such states only, and so does every
    retry they hand to [K].  (Stated for a result property [P] of the
    caller's choice: if [K] and [R] establish [P] when called in such a
    state, the whole run establishes [P].) *)
Theorem trail_exact_invariant :
  forall A (P : Result A -> Prop) (K : Continuation A) (R : Retry A) s,
    P Undefined -> P OutOfFuel ->
    Continuation_respects trail_exact P K ->
    Retry_respects trail_exact P R ->
    trail_exact s ->
    forall fuel a b,
      P (Unify fuel a b K R s) /\
      P (Member0 fuel a b K R s) /\
      P (Member1 fuel a b K R s).
Proof.
  intros A P K R s PU PF HK HR Hs fuel a b.
  split; [|split].
  - apply (proj1 (Unify_respects trail_exact P trail_exact_Bind trail_exact_UnWind
                    PU PF fuel)); assumption.
  - apply (proj1 (Member_respects trail_exact P trail_exact_Bind trail_exact_UnWind
                    trail_exact_new_Term PU PF fuel)); assumption.
  - apply (proj2 (Member_respects trail_exact P trail_exact_Bind trail_exact_UnWind
                    trail_exact_new_Term PU PF fuel)); assumption.
Qed.

Lemma example_var_atom_trail_exact : trail_exact example_var_atom.
Proof.
  split; [constructor|].
  intros p. split; [intros H; inversion H|].
  intros [r Hr]. destruct p as [|[|[|p]]]; discriminate.
Qed.

Lemma trail_exact_invariant_witness :
  trail_exact (Trail_Add 1 (store 1 (TVariable true 2) example_var_atom)).
Proof.
  refine (proj1 (trail_exact_invariant Answer (answers_in trail_exact) yield no_more
                   example_var_atom I I _ _ example_var_atom_trail_exact 1 1 2)).
  - intros R _ s Hs. exact Hs.
  - intros s Hs. exact Hs.
Defined.

(** ** member/2 on a list of constants *)

Lemma Deref_fuel_ge n m t s x : Deref n t s = Done x -> n <= m -> Deref m t s = Done x.
Proof.
  intros H Hle. pose proof (Deref_more_fuel n m t s Hle) as Hm.
  rewrite H in Hm. destruct Hm as (x' & -> & <-). reflexivity.
Qed.

Lemma keeps_refl s : keeps s s.
Proof. intros p c H _. exact H. Qed.

Lemma keeps_trans s1 s2 s3 : keeps s1 s2 -> keeps s2 s3 -> keeps s1 s3.
Proof. intros H12 H23 p c Hc Hn. apply H23; [apply H12|]; assumption. Qed.

Lemma load_alloc c s q :
  load (snd (new_Term c s)) q =
  if decide (q = fst (new_Term c s)) then Some c else load s q.
Proof.
  destruct (decide (q = fst (new_Term c s))) as [->|Hne].
  - apply (load_new_Term c s).
  - apply (load_new_Term c s), Hne.
Qed.

Lemma load_fresh c s : load s (fst (new_Term c s)) = None.
Proof. unfold load. simpl. apply lookup_ge_None_2. lia. Qed.

Lemma alloc_old c s q : is_Some (load s q) -> load (snd (new_Term c s)) q = load s q.
Proof.
  intros Hq. rewrite load_alloc.
  destruct (decide (q = fst (new_Term c s))) as [->|]; [|reflexivity].
  rewrite load_fresh in Hq. destruct Hq; discriminate.
Qed.

Lemma keeps_alloc c s : keeps s (snd (new_Term c s)).
Proof. intros p x Hp _. rewrite alloc_old; [exact Hp | rewrite Hp; eauto]. Qed.

Lemma keeps_Bind v t s :
  is_unbound (load s v) -> keeps s (Trail_Add v (store v (TVariable true t) s)).
Proof.
  intros Hv p c Hp Hn.
  change (load (store v (TVariable true t) s) p = Some c).
  rewrite load_store_ne; [exact Hp|].
  intros ->. apply Hn. rewrite <- Hp. exact Hv.
Qed.

Lemma keeps_Deref s s' n :
  keeps s s' ->
  forall p c, Deref n p s = Done c -> ~ is_unbound (load s c) -> Deref n p s' = Done c.
Proof.
  intros Hk. induction n as [|n IH]; intros p c H Hn; [discriminate|].
  simpl in *. destruct (load s p) as [[[|] ref|name arity slots]|] eqn:E; try discriminate.
  - rewrite (Hk p _ E) by (intros [? [=]]). apply IH; assumption.
  - injection H as <-. exfalso. apply Hn. rewrite E. eexists. reflexivity.
  - injection H as <-. rewrite (Hk p _ E) by (intros [? [=]]). reflexivity.
Qed.

Lemma keeps_atom s s' c name arity slots :
  keeps s s' -> load s c = Some (TAtom name arity slots) ->
  load s' c = Some (TAtom name arity slots).
Proof. intros Hk H. apply Hk; [exact H | intros [? [=]]]. Qed.

Lemma atom_not_unbound s c name arity slots :
  load s c = Some (TAtom name arity slots) -> ~ is_unbound (load s c).
Proof. intros -> [? [=]]. Qed.

Lemma keeps_is_list d s s' p names :
  keeps s s' -> is_list d s p names -> is_list d s' p names.
Proof.
  intros Hk H. induction H as [p c slots Hd Hc|p c e tl rest e' name slots names Hd Hc He He' _ IH].
  - eapply is_list_nil.
    + eapply keeps_Deref; eauto using atom_not_unbound.
    + eapply keeps_atom; eauto.
  - eapply is_list_cons.
    + eapply keeps_Deref; eauto using atom_not_unbound.
    + eapply keeps_atom; eauto.
    + eapply keeps_Deref; eauto using atom_not_unbound.
    + eapply keeps_atom; eauto.
    + exact IH.
Qed.

(** A list does not change when it is reached through another pointer
    to its first cell. *)
Lemma is_list_redirect d s p q names :
  is_list d s p names ->
  (forall c, Deref d p s = Done c -> Deref d q s = Done c) ->
  is_list d s q names.
Proof.
  intros H Hq.
  destruct H as [p c slots Hd Hc|p c e tl rest e' name slots names Hd Hc He He' Htl].
  - eapply is_list_nil; eauto.
  - eapply is_list_cons; eauto.
Qed.

Lemma evolves_refl s : evolves s s.
Proof. split; [reflexivity|]. split; [apply keeps_refl | tauto]. Qed.

Lemma evolves_trans s1 s2 s3 : evolves s1 s2 -> evolves s2 s3 -> evolves s1 s3.
Proof.
  intros (T1 & K1 & U1) (T2 & K2 & U2). split; [congruence|].
  split; [eapply keeps_trans; eauto | auto].
Qed.

Lemma evolves_alloc c s : evolves s (snd (new_Term c s)).
Proof.
  split; [reflexivity|]. split; [apply keeps_alloc|].
  intros q [r Hq]. rewrite alloc_old; [eexists; exact Hq | rewrite Hq; eauto].
Qed.

(** Unwinding to checkpoints that end with [lo] is unwinding to [lo]. *)
Lemma unwinds_unwound {A} (R : Retry A) lo cs :
  forall s,
    checkpoints lo (length (mTrail s)) cs ->
    last cs = Some lo ->
    (forall p, p ∈ drop lo (mTrail s) -> is_var (load s p)) ->
    unwinds cs R s = R (unwound lo s).
Proof.
  induction cs as [|c cs IH]; intros s Hcp Hlast Hvar; [discriminate|].
  destruct Hcp as [Hc Hcp].
  assert (HU : UnWind c s = Done (unwound c s)).
  { apply UnWind_spec; [lia|]. intros p Hp. apply Hvar.
    replace c with (lo + (c - lo)) in Hp by lia. rewrite <- drop_drop in Hp.
    eapply subseteq_drop, Hp. }
  change (unwinds (c :: cs) R s) with (UnifyTerms_r (unwinds cs R) c s).
  unfold UnifyTerms_r. rewrite HU. cbn [mbind Result_mbind Result_bind].
  destruct cs as [|c' cs].
  - injection Hlast as ->. reflexivity.
  - rewrite IH.
    + rewrite unwound_unwound by lia. reflexivity.
    + rewrite length_mTrail_unwound by lia. exact Hcp.
    + exact Hlast.
    + intros p Hp. rewrite load_unwound.
      assert (Hin : p ∈ drop lo (mTrail s)).
      { simpl in Hp. rewrite <- (take_drop c (mTrail s)), drop_app.
        apply elem_of_app. left. exact Hp. }
      destruct (Hvar p Hin) as (b & r & ->). red; eauto.
Qed.

(** [Unify] of the empty list with a pattern [.(X, Y)] fails at once. *)
Lemma Unify_nil_pattern {A} d fuel List A1 (K : Continuation A) (R : Retry A)
    s c slots pattern :
  Deref d List s = Done c ->
  load s c = Some (TAtom "[]" 0 slots) ->
  load s A1 = Some (TAtom "." 2 pattern) ->
  d <= S fuel ->
  Unify (S fuel) List A1 K R s = R s.
Proof.
  intros Hd Hc HA Hf.
  assert (E0 : Deref (S fuel) List s = Done c) by (eapply Deref_fuel_ge; eauto).
  assert (E1 : Deref (S fuel) A1 s = Done A1) by (eapply Deref_atom; eauto).
  destruct (Unify_cases A fuel List A1 K R s c A1 E0 E1) as [_ H].
  apply (proj1 (proj2 (H _ _ _ Hc) _ _ _ HA)). left. discriminate.
Qed.

(** [Unify] of a list cell [.(e, tl)] with a pattern [.(X, Y)] of two
    distinct unbound variables binds [X] to the element and [Y] to the
    tail, and hands [K] a retry that undoes both. *)
Lemma Unify_cons_pattern {A} d fuel List A1 (K : Continuation A) (R : Retry A)
    s c e tl rest X Y rest' e' n1 a1 ts1 tl' n2 a2 ts2 :
  Deref d List s = Done c ->
  load s c = Some (TAtom "." 2 (e :: tl :: rest)) ->
  load s A1 = Some (TAtom "." 2 (X :: Y :: rest')) ->
  Deref d e s = Done e' -> load s e' = Some (TAtom n1 a1 ts1) ->
  Deref d tl s = Done tl' -> load s tl' = Some (TAtom n2 a2 ts2) ->
  is_unbound (load s X) -> is_unbound (load s Y) -> X <> Y ->
  d <= S fuel ->
  Unify (S (S (S (S fuel)))) List A1 K R s =
    K (unwinds [S (length (mTrail s)); length (mTrail s)] R)
      (Trail_Add Y (store Y (TVariable true tl')
         (Trail_Add X (store X (TVariable true e') s)))).
Proof.
  intros Hd Hc HA He He' Htl Htl' HX HY Hne Hf.
  set (i := length (mTrail s)).
  set (sX := Trail_Add X (store X (TVariable true e') s)).
  assert (HkX : keeps s sX) by (apply keeps_Bind, HX).
  (* the two list cells *)
  assert (E0 : Deref (S (S (S (S fuel)))) List s = Done c)
    by (eapply Deref_fuel_ge; eauto; lia).
  assert (E1 : Deref (S (S (S (S fuel)))) A1 s = Done A1) by (eapply Deref_atom; eauto).
  destruct (Unify_cases A (S (S (S fuel))) List A1 K R s c A1 E0 E1) as [_ H].
  rewrite (proj2 (proj2 (H _ _ _ Hc) _ _ _ HA) eq_refl eq_refl).
  (* first pair: the element and X *)
  rewrite UnifyTerms_S. cbn [Z.eqb tail]. fold i.
  assert (E2 : Deref (S (S fuel)) e s = Done e') by (eapply Deref_fuel_ge; eauto; lia).
  assert (E3 : Deref (S (S fuel)) X s = Done X)
    by (simpl; destruct HX as [r ->]; reflexivity).
  destruct (Unify_cases A (S fuel) e X
              (fun _ => UnifyTerms (S (S fuel)) (tl :: rest) (Y :: rest') K
                          (UnifyTerms_r R i) (2 - 1))
              (UnifyTerms_r R i) s e' X E2 E3) as [_ H2].
  rewrite (proj1 (H2 _ _ _ He') HX). fold sX.
  (* second pair: the tail and Y *)
  rewrite UnifyTerms_S. change (2 - 1 =? 0)%Z with false. cbv iota. cbn [tail].
  assert (E4 : Deref (S fuel) tl sX = Done tl').
  { eapply keeps_Deref; [exact HkX | eapply Deref_fuel_ge; eauto |].
    eapply atom_not_unbound; eauto. }
  assert (HYX : load sX Y = load s Y) by (apply load_store_ne; exact Hne).
  assert (E5 : Deref (S fuel) Y sX = Done Y)
    by (simpl; fold (load sX Y); rewrite HYX; destruct HY as [r ->]; reflexivity).
  assert (Htl'X : load sX tl' = Some (TAtom n2 a2 ts2)) by (eapply keeps_atom; eauto).
  destruct (Unify_cases A fuel tl Y
              (fun _ => UnifyTerms (S fuel) rest rest' K
                          (UnifyTerms_r (UnifyTerms_r R i) (length (mTrail sX)))
                          (2 - 1 - 1))
              (UnifyTerms_r (UnifyTerms_r R i) (length (mTrail sX))) sX tl' Y E4 E5)
    as [_ H3].
  rewrite (proj1 (H3 _ _ _ Htl'X)) by (rewrite HYX; exact HY).
  rewrite UnifyTerms_S. change (2 - 1 - 1 =? 0)%Z with true. cbv iota.
  assert (Hlen : length (mTrail sX) = S i)
    by (unfold sX, i; simpl; rewrite length_app; simpl; lia).
  rewrite Hlen. reflexivity.
Qed.

Lemma Member0_S {A} fuel Item List (K : Continuation A) (R : Retry A) s :
  Member0 (S fuel) Item List K R s =
  let v := fst (mkVar s) in
  let s1 := snd (mkVar s) in
  let A1 := fst (mkAtom2 "." Item v s1) in
  let s2 := snd (mkAtom2 "." Item v s1) in
  Unify fuel List A1 (fun R' => K R')
    (UnifyTerms_r (Member1 fuel Item List K R) (length (mTrail s2))) s2.
Proof. reflexivity. Qed.

Lemma Member1_S {A} fuel Item List (K : Continuation A) (R : Retry A) s :
  Member1 (S fuel) Item List K R s =
  let H := fst (mkVar s) in
  let s1 := snd (mkVar s) in
  let T := fst (mkVar s1) in
  let s2 := snd (mkVar s1) in
  let A1 := fst (mkAtom2 "." H T s2) in
  let s3 := snd (mkAtom2 "." H T s2) in
  Unify fuel List A1 (fun R' => Member0 fuel Item T K R')
    (Member1_r R (length (mTrail s3))) s3.
Proof. reflexivity. Qed.

Lemma is_list_head d s p names :
  is_list d s p names ->
  exists c name arity slots,
    Deref d p s = Done c /\ load s c = Some (TAtom name arity slots).
Proof. intros [? c ? Hd Hc|? c ? ? ? ? ? ? ? Hd Hc _ _ _]; eauto 8. Qed.

Lemma mkVar_fresh s :
  load (snd (mkVar s)) (fst (mkVar s)) = Some (TVariable false nullptr) /\
  load s (fst (mkVar s)) = None /\
  evolves s (snd (mkVar s)).
Proof.
  split; [apply (load_new_Term (TVariable false nullptr) s)|].
  split; [apply load_fresh | apply evolves_alloc].
Qed.

Lemma mkAtom2_fresh X Y s :
  load (snd (mkAtom2 "." X Y s)) (fst (mkAtom2 "." X Y s)) =
    Some (TAtom "." 2 (X :: Y :: replicate 8 nullptr)) /\
  load s (fst (mkAtom2 "." X Y s)) = None /\
  evolves s (snd (mkAtom2 "." X Y s)).
Proof.
  split; [apply (load_new_Term _ s)|].
  split; [apply load_fresh | apply evolves_alloc].
Qed.

Lemma Deref_Done_fuel d p s c : Deref d p s = Done c -> 1 <= d.
Proof. destruct d; [discriminate | lia]. Qed.

Lemma Member1_nil d s List :
  is_list d s List [] ->
  forall fuel, d + 1 <= fuel ->
    exists s_end, evolves s s_end /\
      forall A Item (K : Continuation A) (R : Retry A),
        Member1 fuel Item List K R s = R s_end.
Proof.
  intros HL fuel Hf. inversion HL as [? c slots Hd Hc|]; subst.
  pose proof (Deref_Done_fuel _ _ _ _ Hd) as Hd1.
  destruct fuel as [|[|fuel]]; try lia.
  destruct (mkVar_fresh s) as (_ & _ & E1).
  destruct (mkVar_fresh (snd (mkVar s))) as (_ & _ & E2).
  destruct (mkAtom2_fresh (fst (mkVar s)) (fst (mkVar (snd (mkVar s))))
              (snd (mkVar (snd (mkVar s))))) as (HA & _ & E3).
  set (s3 := snd (mkAtom2 "." (fst (mkVar s)) (fst (mkVar (snd (mkVar s))))
                    (snd (mkVar (snd (mkVar s)))))) in *.
  assert (E : evolves s s3) by (eapply evolves_trans; [|exact E3]; eapply evolves_trans; eauto).
  exists s3. split; [exact E|].
  intros A Item K R. rewrite Member1_S. cbv zeta. fold s3.
  destruct E as (_ & Hk & _).
  rewrite (Unify_nil_pattern d fuel List _ _ _ s3 c slots _
             (keeps_Deref _ _ _ Hk _ _ Hd (atom_not_unbound _ _ _ _ _ Hc))
             (keeps_atom _ _ _ _ _ _ Hk Hc) HA ltac:(lia)).
  unfold Member1_r. rewrite UnWind_noop. reflexivity.
Qed.

Lemma Member0_nil d s List Item :
  is_list d s List [] ->
  forall fuel, d + 2 <= fuel ->
    exists s_end, evolves s s_end /\
      forall A (K : Continuation A) (R : Retry A),
        Member0 fuel Item List K R s = R s_end.
Proof.
  intros HL fuel Hf. inversion HL as [? c slots Hd Hc|]; subst.
  pose proof (Deref_Done_fuel _ _ _ _ Hd) as Hd1.
  destruct fuel as [|[|fuel]]; try lia.
  destruct (mkVar_fresh s) as (_ & _ & E1).
  destruct (mkAtom2_fresh Item (fst (mkVar s)) (snd (mkVar s))) as (HA & _ & E2).
  set (s2 := snd (mkAtom2 "." Item (fst (mkVar s)) (snd (mkVar s)))) in *.
  assert (E : evolves s s2) by (eapply evolves_trans; eauto).
  assert (HL2 : is_list d s2 List []) by (eapply keeps_is_list; [apply E | exact HL]).
  destruct (Member1_nil d s2 List HL2 (S fuel) ltac:(lia)) as (s_end & Hev & HM).
  exists s_end. split; [eapply evolves_trans; eauto|].
  intros A K R. rewrite Member0_S. cbv zeta. fold s2.
  destruct E as (_ & Hk & _).
  rewrite (Unify_nil_pattern d fuel List _ _ _ s2 c slots _
             (keeps_Deref _ _ _ Hk _ _ Hd (atom_not_unbound _ _ _ _ _ Hc))
             (keeps_atom _ _ _ _ _ _ Hk Hc) HA ltac:(lia)).
  unfold UnifyTerms_r. rewrite UnWind_noop. apply HM.
Qed.

Lemma load_Bind_ne v c s p : p <> v -> load (Trail_Add v (store v c s)) p = load s p.
Proof. intros H. apply load_store_ne. congruence. Qed.

Lemma load_Bind_eq v c s : is_Some (load s v) -> load (Trail_Add v (store v c s)) v = Some c.
Proof. apply load_store_eq. Qed.

Lemma Deref_bound_to_atom d s T tl' name arity slots :
  2 <= d ->
  load s T = Some (TVariable true tl') ->
  load s tl' = Some (TAtom name arity slots) ->
  Deref d T s = Done tl'.
Proof.
  intros Hd HT Htl. destruct d as [|[|d]]; try lia.
  simpl. rewrite HT, Htl. reflexivity.
Qed.

(** [Member1] on a non-empty list: it binds two fresh variables [H] and
    [T] to the head and the tail and goes on as [Member0] on [T], with a
    retry that releases [H] and [T] before it calls [R]. *)
Lemma Member1_cons d s List name names :
  2 <= d -> is_list d s List (name :: names) ->
  forall fuel, d + 3 <= fuel ->
    exists s' H T,
      load s H = None /\ load s T = None /\
      mTrail s' = mTrail s ++ [H; T] /\
      keeps s s' /\
      (forall q, is_unbound (load s q) -> is_unbound (load s' q)) /\
      (exists r, load s' H = Some (TVariable true r)) /\
      (exists r, load s' T = Some (TVariable true r)) /\
      is_list d s' T names /\
      forall A Item (K : Continuation A) (R : Retry A),
        Member1 (S fuel) Item List K R s =
          Member0 fuel Item T K
            (unwinds [S (length (mTrail s)); length (mTrail s); length (mTrail s)] R) s'.
Proof.
  intros Hd2 HL fuel Hf.
  inversion HL as [|? c e tl rest e' ? slots ? Hd Hc He He' Htl]; subst.
  destruct (is_list_head _ _ _ _ Htl) as (tl' & n2 & a2 & ts2 & Htld & Htl').
  destruct fuel as [|[|[|[|fuel]]]]; try lia.
  destruct (mkVar_fresh s) as (HH1 & HH0 & E1).
  destruct (mkVar_fresh (snd (mkVar s))) as (HT2 & HT1 & E2).
  set (H := fst (mkVar s)) in *. set (s1 := snd (mkVar s)) in *.
  set (T := fst (mkVar s1)) in *. set (s2 := snd (mkVar s1)) in *.
  destruct (mkAtom2_fresh H T s2) as (HA & _ & E3).
  set (A1 := fst (mkAtom2 "." H T s2)) in *. set (s3 := snd (mkAtom2 "." H T s2)) in *.
  assert (E : evolves s s3) by (eapply evolves_trans; [|exact E3]; eapply evolves_trans; eauto).
  destruct E as (Etr & Hk & Hub).
  assert (HH3 : is_unbound (load s3 H)).
  { apply (proj2 (proj2 E3)), (proj2 (proj2 E2)). eexists. exact HH1. }
  assert (HT3 : is_unbound (load s3 T)).
  { apply (proj2 (proj2 E3)). eexists. exact HT2. }
  assert (HneHT : H <> T) by (intros Heq; rewrite Heq in HH1; congruence).
  assert (HT0 : load s T = None).
  { destruct (load s T) as [x|] eqn:Ex; [|reflexivity].
    assert (Hx : load s1 T = load s T) by (apply alloc_old; rewrite Ex; eauto).
    congruence. }
  set (sH := Trail_Add H (store H (TVariable true e') s3)).
  set (s' := Trail_Add T (store T (TVariable true tl') sH)).
  assert (HkH : keeps s3 sH) by (apply keeps_Bind, HH3).
  assert (HTH : is_unbound (load sH T))
    by (unfold sH; rewrite load_Bind_ne by congruence; exact HT3).
  assert (Hk' : keeps s s').
  { eapply keeps_trans; [exact Hk|]. eapply keeps_trans; [exact HkH|].
    apply keeps_Bind, HTH. }
  exists s', H, T.
  split; [exact HH0|]. split; [exact HT0|].
  split; [unfold s', sH; simpl; rewrite <- app_assoc; reflexivity|].
  split; [exact Hk'|].
  split.
  { intros q Hq. destruct Hq as [r Hq].
    assert (q <> H) by (intros ->; congruence).
    assert (q <> T) by (intros ->; congruence).
    unfold s', sH. rewrite !load_Bind_ne by assumption. apply Hub. eexists. exact Hq. }
  assert (HT' : load s' T = Some (TVariable true tl')).
  { apply load_Bind_eq. destruct HTH as [r ->]. eauto. }
  split.
  { exists e'. unfold s'. rewrite load_Bind_ne by exact HneHT.
    apply load_Bind_eq. destruct HH3 as [r ->]. eauto. }
  split; [eauto|].
  split.
  { apply (is_list_redirect d s' tl T); [eapply keeps_is_list; eauto|].
    intros c0 Hc0.
    assert (Htl's : Deref d tl s' = Done tl').
    { eapply keeps_Deref; eauto using atom_not_unbound. }
    assert (c0 = tl') by congruence. subst c0.
    eapply Deref_bound_to_atom; [exact Hd2 | exact HT' |].
    eapply keeps_atom; eauto. }
  intros A Item K R. rewrite Member1_S. cbv zeta.
  fold H s1 T s2 A1 s3.
  rewrite (Unify_cons_pattern d fuel List A1 _ _ s3 c e tl rest H T _
             e' name 0%Z slots tl' n2 a2 ts2
             (keeps_Deref _ _ _ Hk _ _ Hd (atom_not_unbound _ _ _ _ _ Hc))
             (keeps_atom _ _ _ _ _ _ Hk Hc) HA
             (keeps_Deref _ _ _ Hk _ _ He (atom_not_unbound _ _ _ _ _ He'))
             (keeps_atom _ _ _ _ _ _ Hk He')
             (keeps_Deref _ _ _ Hk _ _ Htld (atom_not_unbound _ _ _ _ _ Htl'))
             (keeps_atom _ _ _ _ _ _ Hk Htl')
             HH3 HT3 HneHT ltac:(lia)).
  fold sH s'. rewrite Etr. reflexivity.
Qed.

(** [Member0] on a non-empty list with an unbound [Item]: the first
    solution binds [Item] to the head, and its retry releases the
    binding and goes on as [Member1]. *)
Lemma Member0_cons d fb s List Item name names :
  2 <= d -> 2 <= fb ->
  is_list d s List (name :: names) -> is_unbound (load s Item) ->
  forall fuel, d + 3 <= fuel ->
    exists s1 s4,
      evolves s s4 /\
      bound_to fb Item s1 = Some name /\
      forall R, exists redo,
        Member0 (S fuel) Item List yield R s = Done (Solution s1 redo) /\
        redo s1 = Member1 fuel Item List yield R s4.
Proof.
  intros Hd2 Hfb HL HI fuel Hf.
  inversion HL as [|? c e tl rest e' ? slots ? Hd Hc He He' Htl]; subst.
  destruct (is_list_head _ _ _ _ Htl) as (tl' & n2 & a2 & ts2 & Htld & Htl').
  destruct fuel as [|[|[|[|fuel]]]]; try lia.
  destruct (mkVar_fresh s) as (Hv1 & Hv0 & E1).
  set (v := fst (mkVar s)) in *. set (s1 := snd (mkVar s)) in *.
  destruct (mkAtom2_fresh Item v s1) as (HA & _ & E2).
  set (A1 := fst (mkAtom2 "." Item v s1)) in *.
  set (s2 := snd (mkAtom2 "." Item v s1)) in *.
  assert (E : evolves s s2) by (eapply evolves_trans; eauto).
  destruct E as (Etr & Hk & Hub).
  assert (HI2 : is_unbound (load s2 Item)) by (apply Hub, HI).
  assert (Hv2 : is_unbound (load s2 v)).
  { apply (proj2 (proj2 E2)). eexists. exact Hv1. }
  assert (Hne : Item <> v) by (intros ->; destruct HI as [r Hr]; congruence).
  set (i := length (mTrail s2)).
  set (sI := Trail_Add Item (store Item (TVariable true e') s2)).
  set (s3 := Trail_Add v (store v (TVariable true tl') sI)).
  assert (HkI : keeps s2 sI) by (apply keeps_Bind, HI2).
  assert (HvI : is_unbound (load sI v))
    by (unfold sI; rewrite load_Bind_ne by congruence; exact Hv2).
  assert (Hk3 : keeps s s3).
  { eapply keeps_trans; [exact Hk|]. eapply keeps_trans; [exact HkI|].
    apply keeps_Bind, HvI. }
  assert (HI3 : load s3 Item = Some (TVariable true e')).
  { unfold s3. rewrite load_Bind_ne by exact Hne.
    apply load_Bind_eq. destruct HI2 as [r ->]. eauto. }
  assert (Hv3 : load s3 v = Some (TVariable true tl')).
  { apply load_Bind_eq. destruct HvI as [r ->]. eauto. }
  assert (Htr3 : mTrail s3 = mTrail s ++ [Item; v])
    by (unfold s3, sI; simpl; rewrite <- app_assoc; reflexivity).
  assert (Hi : i = length (mTrail s)) by reflexivity.
  assert (Hdrop : drop i (mTrail s3) = [Item; v])
    by (rewrite Htr3, Hi; apply drop_app_length).
  exists s3, (unwound i s3). split; [|split].
  - (* the state in which Member1 goes on *)
    split; [change (take i (mTrail s3) = mTrail s); rewrite Htr3, Hi;
            apply take_app_length|].
    split.
    + intros p x Hp Hn. rewrite load_unwound, (Hk3 p x Hp Hn).
      destruct x as [b r|? ? ?]; [|reflexivity].
      destruct (decide (p ∈ drop i (mTrail s3))) as [Hin|]; [|reflexivity].
      exfalso. rewrite Hdrop in Hin.
      apply elem_of_cons in Hin as [->|Hin].
      * apply Hn. rewrite <- Hp. exact HI.
      * apply list_elem_of_singleton in Hin as ->. congruence.
    + intros q Hq. rewrite load_unwound.
      destruct (decide (q = Item)) as [->|HqI].
      * rewrite HI3, Hdrop.
        destruct (decide (Item ∈ [Item; v])) as [_|Hn]; [eexists; reflexivity|].
        exfalso. apply Hn. left.
      * assert (Hqv : q <> v) by (intros ->; destruct Hq as [r Hr]; congruence).
        unfold s3, sI. rewrite !load_Bind_ne by assumption.
        destruct (Hub q Hq) as [r ->].
        destruct (decide (q ∈ drop i _)); eexists; reflexivity.
  - (* the binding of Item in the solution *)
    unfold bound_to.
    rewrite (Deref_bound_to_atom fb s3 Item e' name 0%Z slots Hfb HI3
               (keeps_atom _ _ _ _ _ _ Hk3 He')).
    rewrite (keeps_atom _ _ _ _ _ _ Hk3 He'). reflexivity.
  - intros R.
    exists (unwinds [S i; i] (UnifyTerms_r (Member1 (S (S (S (S fuel)))) Item List yield R) i)).
    split.
    + rewrite Member0_S. cbv zeta. fold v s1 A1 s2 i.
      rewrite (Unify_cons_pattern d fuel List A1 _ _ s2 c e tl rest Item v _
                 e' name 0%Z slots tl' n2 a2 ts2
                 (keeps_Deref _ _ _ Hk _ _ Hd (atom_not_unbound _ _ _ _ _ Hc))
                 (keeps_atom _ _ _ _ _ _ Hk Hc) HA
                 (keeps_Deref _ _ _ Hk _ _ He (atom_not_unbound _ _ _ _ _ He'))
                 (keeps_atom _ _ _ _ _ _ Hk He')
                 (keeps_Deref _ _ _ Hk _ _ Htld (atom_not_unbound _ _ _ _ _ Htl'))
                 (keeps_atom _ _ _ _ _ _ Hk Htl')
                 HI2 Hv2 Hne ltac:(lia)).
      reflexivity.
    + change (unwinds [S i; i] (UnifyTerms_r (Member1 (S (S (S (S fuel)))) Item List yield R) i))
        with (unwinds [S i; i; i] (Member1 (S (S (S (S fuel)))) Item List yield R)).
      apply unwinds_unwound.
      * rewrite Htr3, length_app, <- Hi. simpl. lia.
      * reflexivity.
      * intros p Hp. rewrite Hdrop in Hp.
        apply elem_of_cons in Hp as [->|Hp].
        -- rewrite HI3. red; eauto.
        -- apply list_elem_of_singleton in Hp as ->. rewrite Hv3. red; eauto.
Qed.

Lemma Member0_enumerates d fb :
  2 <= d -> 2 <= fb ->
  forall names fuel s Item List (R : Retry Answer) redos,
    2 * length names + d + 4 <= fuel ->
    is_list d s List names -> is_unbound (load s Item) ->
    exists s_end,
      evolves s s_end /\
      enumerate (length names + redos) fb Item (Member0 fuel Item List yield R s) =
        sols names (enumerate redos fb Item (R s_end)).
Proof.
  intros Hd2 Hfb names.
  induction names as [|name names IH]; intros fuel s Item List R redos Hf HL HI.
  - destruct (Member0_nil d s List Item HL fuel ltac:(simpl in Hf; lia))
      as (s_end & Hev & HM).
    exists s_end. split; [exact Hev|]. rewrite HM. reflexivity.
  - cbn [length] in Hf.
    destruct fuel as [|[|f2]]; try lia.
    destruct (Member0_cons d fb s List Item name names Hd2 Hfb HL HI (S f2) ltac:(lia))
      as (s1 & s4 & Hev4 & Hb & Hredo).
    destruct (Hredo R) as (redo & HM & Hr).
    assert (HL4 : is_list d s4 List (name :: names))
      by (eapply keeps_is_list; [apply Hev4 | exact HL]).
    assert (HI4 : is_unbound (load s4 Item)) by (apply Hev4, HI).
    destruct (Member1_cons d s4 List name names Hd2 HL4 f2 ltac:(lia))
      as (s' & H & T & HH4 & HT4 & Htr' & Hk' & Hub' & [rH HH'] & [rT HT'] & HL' & HM1).
    set (j := length (mTrail s4)) in *.
    destruct (IH f2 s' Item T (unwinds [S j; j; j] R) redos ltac:(lia) HL' (Hub' _ HI4))
      as (s_end' & (Htr_e & Hk_e & Hub_e) & Henum).
    assert (Hdrop : drop j (mTrail s_end') = [H; T])
      by (rewrite Htr_e, Htr'; apply drop_app_length).
    assert (HHe : load s_end' H = Some (TVariable true rH))
      by (apply Hk_e; [exact HH' | intros [? [=]]]).
    assert (HTe : load s_end' T = Some (TVariable true rT))
      by (apply Hk_e; [exact HT' | intros [? [=]]]).
    assert (HR3 : unwinds [S j; j; j] R s_end' = R (unwound j s_end')).
    { apply unwinds_unwound.
      - rewrite Htr_e, Htr', length_app. fold j. simpl. lia.
      - reflexivity.
      - intros p Hp. rewrite Hdrop in Hp.
        apply elem_of_cons in Hp as [->|Hp].
        + rewrite HHe. red; eauto.
        + apply list_elem_of_singleton in Hp as ->. rewrite HTe. red; eauto. }
    exists (unwound j s_end'). split.
    + eapply evolves_trans; [exact Hev4|]. split; [|split].
      * change (take j (mTrail s_end') = mTrail s4).
        rewrite Htr_e, Htr'. apply take_app_length.
      * intros p x Hp Hn. rewrite load_unwound.
        rewrite (Hk_e p x (Hk' p x Hp Hn) Hn).
        destruct x as [b r|? ? ?]; [|reflexivity].
        destruct (decide (p ∈ drop j (mTrail s_end'))) as [Hin|]; [|reflexivity].
        exfalso. rewrite Hdrop in Hin.
        apply elem_of_cons in Hin as [->|Hin]; [congruence|].
        apply list_elem_of_singleton in Hin as ->. congruence.
      * intros q Hq. rewrite load_unwound.
        destruct (Hub_e q (Hub' q Hq)) as [r ->].
        destruct (decide (q ∈ drop j (mTrail s_end'))); eexists; reflexivity.
    + rewrite HM. cbn [length Nat.add enumerate sols foldr].
      rewrite Hb, Hr, (HM1 Answer Item yield R). fold j.
      fold (sols names (enumerate redos fb Item (R (unwound j s_end')))).
      rewrite <- HR3, <- Henum. reflexivity.
Qed.

(** X14.  [member(Item, List)] for an unbound [Item] and a list of [n]
    constants, with enough fuel: [Member0] yields one solution per
    element, in the order of the list, each with [Item] bound to that
    element; the retry of the last solution calls the caller's retry
    [R], in a state with the trail of the start and with every cell of
    the start as it was, up to the references kept by unbound
    variables.  With the retry that ends the search, the enumeration is
    exactly the elements of the list. *)
Theorem Member0_enumerates_list (d fb : nat) (names : list string) (fuel : nat)
    (s : State) (Item List : ptr) :
  2 <= d -> 2 <= fb ->
  2 * length names + d + 4 <= fuel ->
  is_list d s List names -> is_unbound (load s Item) ->
  (forall (R : Retry Answer) redos, exists s_end,
      evolves s s_end /\
      enumerate (length names + redos) fb Item (Member0 fuel Item List yield R s) =
        sols names (enumerate redos fb Item (R s_end))) /\
  enumerate (length names) fb Item (Member0 fuel Item List yield no_more s) =
    sols names End.
Proof.
  intros Hd2 Hfb Hf HL HI. split.
  - intros R redos. apply (Member0_enumerates d fb); assumption.
  - destruct (Member0_enumerates d fb Hd2 Hfb names fuel s Item List no_more 0 Hf HL HI)
      as (s_end & _ & H).
    rewrite Nat.add_0_r in H. rewrite H. reflexivity.
Qed.

Lemma main_list_is_list : is_list 2 main_state main_list ["cat"; "dog"; "frog"].
Proof.
  repeat (eapply is_list_cons; [reflexivity | reflexivity | reflexivity | reflexivity |]).
  eapply is_list_nil; reflexivity.
Qed.

Lemma Member0_enumerates_list_witness :
  (forall (R : Retry Answer) redos, exists s_end,
      evolves main_state s_end /\
      enumerate (length ["cat"; "dog"; "frog"] + redos) 2 main_item
                (Member0 12 main_item main_list yield R main_state) =
        sols ["cat"; "dog"; "frog"] (enumerate redos 2 main_item (R s_end))) /\
  enumerate (length ["cat"; "dog"; "frog"]) 2 main_item
            (Member0 12 main_item main_list yield no_more main_state) =
    sols ["cat"; "dog"; "frog"] End.
Proof.
  apply (Member0_enumerates_list 2 2 ["cat"; "dog"; "frog"] 12 main_state
           main_item main_list).
  - lia.
  - lia.
  - simpl. lia.
  - exact main_list_is_list.
  - exists 0. reflexivity.
Defined.

(** ** member/2 as a test *)

Lemma keeps_is_const d s s' t x : keeps s s' -> is_const d s t x -> is_const d s' t x.
Proof.
  intros Hk (c & slots & Hd & Hc). exists c, slots. split.
  - eapply keeps_Deref; eauto using atom_not_unbound.
  - eapply keeps_atom; eauto.
Qed.

(** [Unify] of a list cell [.(e, tl)] with a pattern [.(Item, Y)], where
    [Item] is the constant [x], the element is the constant [n1] and [Y]
    is an unbound variable: it succeeds, binding [Y] only, when the two
    constants are the same, and fails otherwise. *)
Lemma Unify_cons_const {A} d fuel List A1 (K : Continuation A) (R : Retry A)
    s c e tl rest Item Y rest' e' n1 ts1 tl' n2 a2 ts2 I' x tsI :
  Deref d List s = Done c ->
  load s c = Some (TAtom "." 2 (e :: tl :: rest)) ->
  load s A1 = Some (TAtom "." 2 (Item :: Y :: rest')) ->
  Deref d e s = Done e' -> load s e' = Some (TAtom n1 0 ts1) ->
  Deref d tl s = Done tl' -> load s tl' = Some (TAtom n2 a2 ts2) ->
  Deref d Item s = Done I' -> load s I' = Some (TAtom x 0 tsI) ->
  is_unbound (load s Y) ->
  d <= S fuel ->
  Unify (S (S (S (S fuel)))) List A1 K R s =
    if String.eqb x n1
    then K (unwinds [length (mTrail s); length (mTrail s)] R)
           (Trail_Add Y (store Y (TVariable true tl') s))
    else R s.
Proof.
  intros Hd Hc HA He He' Htl Htl' HI HI' HY Hf.
  set (i := length (mTrail s)).
  assert (E0 : Deref (S (S (S (S fuel)))) List s = Done c)
    by (eapply Deref_fuel_ge; eauto; lia).
  assert (E1 : Deref (S (S (S (S fuel)))) A1 s = Done A1) by (eapply Deref_atom; eauto).
  destruct (Unify_cases A (S (S (S fuel))) List A1 K R s c A1 E0 E1) as [_ H].
  rewrite (proj2 (proj2 (H _ _ _ Hc) _ _ _ HA) eq_refl eq_refl).
  rewrite UnifyTerms_S. cbn [Z.eqb tail]. fold i.
  assert (E2 : Deref (S (S fuel)) e s = Done e') by (eapply Deref_fuel_ge; eauto; lia).
  assert (E3 : Deref (S (S fuel)) Item s = Done I') by (eapply Deref_fuel_ge; eauto; lia).
  destruct (Unify_cases A (S fuel) e Item
              (fun _ => UnifyTerms (S (S fuel)) (tl :: rest) (Y :: rest') K
                          (UnifyTerms_r R i) (2 - 1))
              (UnifyTerms_r R i) s e' I' E2 E3) as [_ H2].
  destruct (proj2 (H2 _ _ _ He') _ _ _ HI') as [Hdiff Hsame].
  destruct (String.eqb_spec x n1) as [->|Hne].
  - rewrite (Hsame eq_refl eq_refl).
    rewrite UnifyTerms_S. cbn [Z.eqb].
    rewrite UnifyTerms_S. change (2 - 1 =? 0)%Z with false. cbv iota. cbn [tail].
    assert (E4 : Deref (S fuel) tl s = Done tl') by (eapply Deref_fuel_ge; eauto).
    assert (E5 : Deref (S fuel) Y s = Done Y)
      by (simpl; destruct HY as [r ->]; reflexivity).
    destruct (Unify_cases A fuel tl Y
                (fun _ => UnifyTerms (S fuel) rest rest' K
                            (UnifyTerms_r (UnifyTerms_r R i) (length (mTrail s)))
                            (2 - 1 - 1))
                (UnifyTerms_r (UnifyTerms_r R i) (length (mTrail s))) s tl' Y E4 E5)
      as [_ H3].
    rewrite (proj1 (H3 _ _ _ Htl') HY).
    rewrite UnifyTerms_S. change (2 - 1 - 1 =? 0)%Z with true. cbv iota.
    reflexivity.
  - rewrite Hdiff by (left; congruence).
    unfold UnifyTerms_r, i. rewrite UnWind_noop. reflexivity.
Qed.

(** [Member1] on a non-empty list, given what [Member0] does on the
    tail: [Q] is what is known of [Item], [sel] the solutions that the
    tail yields. *)
Lemma Member1_step d fb name names sel Item (Q : State -> Prop) :
  2 <= d ->
  (forall s s', keeps s s' ->
                (forall q, is_unbound (load s q) -> is_unbound (load s' q)) ->
                Q s -> Q s') ->
  (forall fuel s List (R : Retry Answer) redos,
      2 * length names + d + 4 <= fuel -> is_list d s List names -> Q s ->
      exists s_end,
        evolves s s_end /\
        enumerate (length sel + redos) fb Item (Member0 fuel Item List yield R s) =
          sols sel (enumerate redos fb Item (R s_end))) ->
  forall fuel s List (R : Retry Answer) redos,
    2 * length names + d + 5 <= fuel -> is_list d s List (name :: names) -> Q s ->
    exists s_end,
      evolves s s_end /\
      enumerate (length sel + redos) fb Item (Member1 fuel Item List yield R s) =
        sols sel (enumerate redos fb Item (R s_end)).
Proof.
  intros Hd2 HQ IH fuel s List R redos Hf HL Hq.
  destruct fuel as [|f2]; [lia|].
  destruct (Member1_cons d s List name names Hd2 HL f2 ltac:(lia))
    as (s' & H & T & HH4 & HT4 & Htr' & Hk' & Hub' & [rH HH'] & [rT HT'] & HL' & HM1).
  set (j := length (mTrail s)) in *.
  destruct (IH f2 s' T (unwinds [S j; j; j] R) redos ltac:(lia) HL' (HQ _ _ Hk' Hub' Hq))
    as (s_end' & (Htr_e & Hk_e & Hub_e) & Henum).
  assert (Hdrop : drop j (mTrail s_end') = [H; T])
    by (rewrite Htr_e, Htr'; apply drop_app_length).
  assert (HHe : load s_end' H = Some (TVariable true rH))
    by (apply Hk_e; [exact HH' | intros [? [=]]]).
  assert (HTe : load s_end' T = Some (TVariable true rT))
    by (apply Hk_e; [exact HT' | intros [? [=]]]).
  assert (HR3 : unwinds [S j; j; j] R s_end' = R (unwound j s_end')).
  { apply unwinds_unwound.
    - rewrite Htr_e, Htr', length_app. fold j. simpl. lia.
    - reflexivity.
    - intros p Hp. rewrite Hdrop in Hp.
      apply elem_of_cons in Hp as [->|Hp].
      + rewrite HHe. red; eauto.
      + apply list_elem_of_singleton in Hp as ->. rewrite HTe. red; eauto. }
  exists (unwound j s_end'). split.
  - split; [|split].
    + change (take j (mTrail s_end') = mTrail s).
      rewrite Htr_e, Htr'. apply take_app_length.
    + intros p x Hp Hn. rewrite load_unwound.
      rewrite (Hk_e p x (Hk' p x Hp Hn) Hn).
      destruct x as [b r|? ? ?]; [|reflexivity].
      destruct (decide (p ∈ drop j (mTrail s_end'))) as [Hin|]; [|reflexivity].
      exfalso. rewrite Hdrop in Hin.
      apply elem_of_cons in Hin as [->|Hin]; [congruence|].
      apply list_elem_of_singleton in Hin as ->. congruence.
    + intros q Hq'. rewrite load_unwound.
      destruct (Hub_e q (Hub' q Hq')) as [r ->].
      destruct (decide (q ∈ drop j (mTrail s_end'))); eexists; reflexivity.
  - rewrite (HM1 Answer Item yield R). fold j. rewrite <- HR3. exact Henum.
Qed.

Lemma Member0_tests d fb x Item :
  2 <= d -> d <= fb ->
  forall names fuel s List (R : Retry Answer) redos,
    2 * length names + d + 4 <= fuel ->
    is_list d s List names -> is_const d s Item x ->
    exists s_end,
      evolves s s_end /\
      enumerate (length (filter (eq x) names) + redos) fb Item
                (Member0 fuel Item List yield R s) =
        sols (filter (eq x) names) (enumerate redos fb Item (R s_end)).
Proof.
  intros Hd2 Hfb names.
  induction names as [|name names IH]; intros fuel s List R redos Hf HL HI.
  - destruct (Member0_nil d s List Item HL fuel ltac:(simpl in Hf; lia))
      as (s_end & Hev & HM).
    exists s_end. split; [exact Hev|]. rewrite HM. reflexivity.
  - cbn [length] in Hf.
    assert (HQ : forall s s', keeps s s' ->
               (forall q, is_unbound (load s q) -> is_unbound (load s' q)) ->
               is_const d s Item x -> is_const d s' Item x)
      by (intros ? ? Hk _; apply keeps_is_const, Hk).
    pose proof (Member1_step d fb name names (filter (eq x) names) Item
                  (fun s => is_const d s Item x) Hd2 HQ IH) as Hstep.
    inversion HL as [|? c e tl rest e' ? slots ? Hd Hc He He' Htl]; subst.
    destruct (is_list_head _ _ _ _ Htl) as (tl' & n2 & a2 & ts2 & Htld & Htl').
    destruct fuel as [|[|[|[|[|fuel]]]]]; try lia.
    destruct (mkVar_fresh s) as (Hv1 & Hv0 & E1).
    set (v := fst (mkVar s)) in *. set (s1 := snd (mkVar s)) in *.
    destruct (mkAtom2_fresh Item v s1) as (HA & _ & E2).
    set (A1 := fst (mkAtom2 "." Item v s1)) in *.
    set (s2 := snd (mkAtom2 "." Item v s1)) in *.
    assert (E : evolves s s2) by (eapply evolves_trans; eauto).
    pose proof E as (Etr & Hk & Hub).
    assert (Hv2 : is_unbound (load s2 v)).
    { apply (proj2 (proj2 E2)). eexists. exact Hv1. }
    destruct (keeps_is_const d s s2 Item x Hk HI) as (I' & tsI & HId & HI').
    assert (HL2 : is_list d s2 List (name :: names)) by (eapply keeps_is_list; eauto).
    set (i := length (mTrail s2)).
    pose proof (fun K R' =>
      Unify_cons_const (A := Answer) d fuel List A1 K R' s2 c e tl rest Item v _
        e' name slots tl' n2 a2 ts2 I' x tsI
        (keeps_Deref _ _ _ Hk _ _ Hd (atom_not_unbound _ _ _ _ _ Hc))
        (keeps_atom _ _ _ _ _ _ Hk Hc) HA
        (keeps_Deref _ _ _ Hk _ _ He (atom_not_unbound _ _ _ _ _ He'))
        (keeps_atom _ _ _ _ _ _ Hk He')
        (keeps_Deref _ _ _ Hk _ _ Htld (atom_not_unbound _ _ _ _ _ Htl'))
        (keeps_atom _ _ _ _ _ _ Hk Htl')
        HId HI' Hv2 ltac:(lia)) as HU.
    fold i in HU.
    rewrite Member0_S. cbv zeta. fold v s1 A1 s2 i. rewrite HU.
    destruct (String.eqb_spec x name) as [<-|Hne].
    + (* the head is the constant: one solution, then the tail *)
      rewrite filter_cons_True by reflexivity.
      set (s3 := Trail_Add v (store v (TVariable true tl') s2)).
      assert (Hk3 : keeps s2 s3) by (apply keeps_Bind, Hv2).
      assert (Hv3 : load s3 v = Some (TVariable true tl')).
      { apply load_Bind_eq. destruct Hv2 as [r ->]. eauto. }
      assert (Htr3 : mTrail s3 = mTrail s2 ++ [v]) by reflexivity.
      assert (Hdrop : drop i (mTrail s3) = [v]) by (rewrite Htr3; apply drop_app_length).
      set (M := Member1 (S (S (S (S fuel)))) Item List yield R).
      assert (Hredo : unwinds [i; i] (UnifyTerms_r M i) s3 = M (unwound i s3)).
      { change (unwinds [i; i] (UnifyTerms_r M i)) with (unwinds [i; i; i] M).
        apply unwinds_unwound.
        - rewrite Htr3, length_app. fold i. simpl. lia.
        - reflexivity.
        - intros p Hp. rewrite Hdrop in Hp.
          apply list_elem_of_singleton in Hp as ->. rewrite Hv3. red; eauto. }
      assert (E4 : evolves s (unwound i s3)).
      { eapply evolves_trans; [exact E|]. split; [|split].
        - change (take i (mTrail s3) = mTrail s2). rewrite Htr3. apply take_app_length.
        - intros p y Hp Hn. rewrite load_unwound, (Hk3 p y Hp Hn).
          destruct y as [b r|? ? ?]; [|reflexivity].
          destruct (decide (p ∈ drop i (mTrail s3))) as [Hin|]; [|reflexivity].
          exfalso. rewrite Hdrop in Hin. apply list_elem_of_singleton in Hin as ->.
          apply Hn. rewrite <- Hp. exact Hv2.
        - intros q Hq. rewrite load_unwound.
          destruct (decide (q = v)) as [->|Hqv].
          + rewrite Hv3. rewrite Hdrop.
            destruct (decide (v ∈ [v])) as [_|Hn]; [eexists; reflexivity|].
            exfalso. apply Hn. left.
          + unfold s3. rewrite load_Bind_ne by exact Hqv.
            destruct Hq as [r ->].
            destruct (decide (q ∈ drop i _)); eexists; reflexivity. }
      destruct (Hstep (S (S (S (S fuel)))) (unwound i s3) List R redos ltac:(lia))
        as (s_end & Hev & Henum).
      { eapply keeps_is_list; [apply E4 | exact HL]. }
      { eapply keeps_is_const; [apply E4 | exact HI]. }
      exists s_end. split; [eapply evolves_trans; eauto|].
      cbn [length Nat.add enumerate sols foldr].
      fold (sols (filter (eq x) names) (enumerate redos fb Item (R s_end))).
      cbv beta iota delta [yield].
      rewrite Hredo. fold M in Henum. rewrite Henum. do 2 f_equal.
      destruct (keeps_is_const d s2 s3 Item x Hk3 (ex_intro _ I' (ex_intro _ tsI (conj HId HI'))))
        as (c3 & ts3 & Hd3 & Hc3).
      unfold bound_to. rewrite (Deref_fuel_ge _ _ _ _ _ Hd3 Hfb), Hc3. reflexivity.
    + (* the head is another constant: nothing is bound, go on with the tail *)
      rewrite filter_cons_False by congruence.
      unfold UnifyTerms_r, i. rewrite UnWind_noop.
      cbn [mbind Result_mbind Result_bind].
      destruct (Hstep (S (S (S (S fuel)))) s2 List R redos ltac:(lia) HL2
                  (ex_intro _ I' (ex_intro _ tsI (conj HId HI'))))
        as (s_end & Hev & Henum).
      exists s_end. split; [eapply evolves_trans; eauto | exact Henum].
Qed.

(** X15.  [member(Item, List)] as a test: when [Item] dereferences to
    a constant [x] and [List] is a list of constants, [Member0] (with
    enough fuel) yields one solution for every occurrence of [x] in the
    list and then calls the caller's retry; when [x] does not occur in
    the list there is no solution at all.  The state in which the retry
    is called has the trail of the start and every cell of the start as
    it was, up to the references kept by unbound variables. *)
Theorem Member0_tests_membership (d fb : nat) (x : string) (names : list string)
    (fuel : nat) (s : State) (Item List : ptr) :
  2 <= d -> d <= fb ->
  2 * length names + d + 4 <= fuel ->
  is_list d s List names -> is_const d s Item x ->
  (forall (R : Retry Answer) redos, exists s_end,
      evolves s s_end /\
      enumerate (length (filter (eq x) names) + redos) fb Item
                (Member0 fuel Item List yield R s) =
        sols (filter (eq x) names) (enumerate redos fb Item (R s_end))) /\
  (x ∉ names ->
   exists s_end, Member0 fuel Item List yield no_more s = Done (NoMore s_end)).
Proof.
  intros Hd2 Hfb Hf HL HI. split.
  - intros R redos. apply (Member0_tests d fb x Item); assumption.
  - intros Hnin.
    destruct (Member0_tests d fb x Item Hd2 Hfb names fuel s List no_more 0 Hf HL HI)
      as (s_end & Hev & H).
    assert (Hnil : filter (eq x) names = []).
    { clear -Hnin. induction names as [|y names IHn]; [reflexivity|].
      apply not_elem_of_cons in Hnin as [Hy Hnin].
      rewrite filter_cons_False by congruence. apply IHn, Hnin. }
    rewrite Hnil in H. cbn [length Nat.add sols foldr] in H.
    destruct (Member0 fuel Item List yield no_more s) as [[s0|s0 redo]| |];
      try discriminate.
    exists s0. reflexivity.
Qed.

Lemma Member0_tests_membership_witness :
  (forall (R : Retry Answer) redos, exists s_end,
      evolves main_state s_end /\
      enumerate (length (filter (eq "cat") ["cat"; "dog"; "frog"]) + redos) 2 1
                (Member0 12 1 main_list yield R main_state) =
        sols (filter (eq "cat") ["cat"; "dog"; "frog"])
             (enumerate redos 2 1 (R s_end))) /\
  (exists s_end, Member0 12 9 main_list yield no_more main_state = Done (NoMore s_end)).
Proof.
  split.
  - refine (proj1 (Member0_tests_membership 2 2 "cat" ["cat"; "dog"; "frog"] 12
                     main_state 1 main_list _ _ _ main_list_is_list _)).
    + lia.
    + lia.
    + simpl. lia.
    + eexists _, _. split; reflexivity.
  - refine (proj2 (Member0_tests_membership 2 2 "monkey" ["cat"; "dog"; "frog"] 12
                     main_state 9 main_list _ _ _ main_list_is_list _) _).
    + lia.
    + lia.
    + simpl. lia.
    + eexists _, _. split; reflexivity.
    + intros H. repeat (apply elem_of_cons in H as [H|H]; [discriminate|]).
      inversion H.
Defined.
